(** * Platform assignment and delay metrics of the train scheduler

    A shallow embedding of [src/components/train-scheduler.tsx]:
    [assignPlatformsScoreBased], the [platformMetrics] aggregator and the
    per-train delay reports computed inside [TrainScheduler].

    Numbers.  The file has the code over two kinds of numbers.  In the first
    part a TypeScript [number] is a rational ([Q]), equality of numbers is
    [Qeq] ([==]) and [Number.POSITIVE_INFINITY] is the extra element
    [PosInf] of [ExtQ]; rounding, overflow and NaN are outside it.  It
    carries what the code does with the trains and the platforms: which
    train goes where, in which order, the counts and the store.  In
    [Module Double] a [number] is what it is at run time, an IEEE 754 double
    ([PrimFloat.float]) with its rounding, its infinities and NaN.  It
    carries what depends on the arithmetic itself: which platform the scan
    picks, the effective interval, and the two delay reports.  Lengths,
    indices and platform ids, which the code only ever produces as small
    non-negative integers, are [nat] (the scan index [bestIdx], which starts
    at -1, is a [Z]).

    Objects.  The first part is a pure model: arrays are lists and objects
    are records.  The second part ([Module Heap]) replays
    [assignPlatformsScoreBased] on a store of objects and arrays addressed by
    references, so that what the function writes to is explicit. *)

From Stdlib Require Import QArith Qminmax Qround Qabs Lqa Lia.
From Stdlib Require Import Sorting.Sorted Sorting.Permutation.
From Stdlib Require Import DecimalString.
From Stdlib Require Floats.
From stdpp Require Import gmap strings list.

(* ------------------------------------------------------------------ *)
(** ** Numbers *)

Definition Qltb (x y : Q) : bool := negb (Qle_bool y x).

(** [Number.POSITIVE_INFINITY] next to the finite numbers. *)
Inductive ExtQ :=
| Fin (q : Q)
| PosInf.

(** [score < bestScore] where [score] is finite. *)
Definition lt_ext (s : Q) (b : ExtQ) : bool :=
  match b with
  | Fin q => Qltb s q
  | PosInf => true
  end.

(** [Math.max(a, b)] and [Math.abs(x)]. *)
Definition Math_max (a b : Q) : Q := Qmax a b.
Definition Math_abs (x : Q) : Q := Qabs x.

(** [Number(x.toFixed(2))].  [toFixed] drops the sign, picks the integer [n]
    with [n / 100] nearest to the magnitude (the larger [n] on a tie) and
    prints [n] with two decimals; from 10^21 on it prints the number itself.
    [Number] reads the decimal string back. *)
Definition toFixed2_mag (x : Q) : Q :=
  if Qle_bool (inject_Z (10 ^ 21)) x then x
  else (inject_Z (Qfloor (x * 100 + (1 # 2))) / 100)%Q.

Definition Number_toFixed2 (x : Q) : Q :=
  if Qltb x 0 then (- toFixed2_mag (- x))%Q else toFixed2_mag x.

(* ------------------------------------------------------------------ *)
(** ** Data model *)

Inductive Status := OnTime | Delayed.

Definition Status_eqb (a b : Status) : bool :=
  match a, b with
  | OnTime, OnTime | Delayed, Delayed => true
  | _, _ => false
  end.

Module Train.
Record t := mk {
  id : string;
  name : string;
  arrival : Q;
  departure : Q;
  delay : Q;
  status : Status
}.
End Train.

(** [AssignedTrain = Train & { effectiveArrival; effectiveDeparture }].
    The object is built by the spread [{ ...t, effectiveArrival, ... }]: the
    field [train] holds the copied [Train] fields. *)
Module AssignedTrain.
Record t := mk {
  train : Train.t;
  effectiveArrival : Q;
  effectiveDeparture : Q
}.
Definition id (a : t) := Train.id (train a).
Definition name (a : t) := Train.name (train a).
Definition arrival (a : t) := Train.arrival (train a).
Definition departure (a : t) := Train.departure (train a).
Definition delay (a : t) := Train.delay (train a).
Definition status (a : t) := Train.status (train a).
End AssignedTrain.

Module Platform.
Record t := mk {
  id : nat;
  trains : list AssignedTrain.t;
  nextFreeAt : Q
}.
End Platform.

Module ScoringWeights.
Record t := mk {
  idleGap : Q;
  load : Q;
  delayedSpread : Q
}.
End ScoringWeights.

Definition DEFAULT_WEIGHTS : ScoringWeights.t :=
  ScoringWeights.mk 1.0 0.3 0.5.

(* ------------------------------------------------------------------ *)
(** ** [Array.prototype.sort]

    ECMAScript (2019 on) requires the sort to be stable: two elements change
    their relative order only when the comparator puts the earlier one
    strictly after the later one.  For a consistent comparator that fixes the
    result, which is computed here by insertion from the right. *)

Section ArraySort.
Context {A : Type} (comparefn : A -> A -> Q).

Fixpoint sort_insert (x : A) (l : list A) : list A :=
  match l with
  | [] => [x]
  | y :: l' =>
      if Qle_bool (comparefn x y) 0 then x :: y :: l'
      else y :: sort_insert x l'
  end.

Definition Array_sort (l : list A) : list A := foldr sort_insert [] l.
End ArraySort.

(* ------------------------------------------------------------------ *)
(** ** [assignPlatformsScoreBased] *)

(** The callback of [trains.map]. *)
Definition withEffective1 (t : Train.t) : AssignedTrain.t :=
  AssignedTrain.mk t
    (Train.arrival t + Train.delay t)%Q
    (Train.departure t + Train.delay t)%Q.

(** The comparator handed to [sort]. *)
Definition byEffectiveArrival (a b : AssignedTrain.t) : Q :=
  (AssignedTrain.effectiveArrival a - AssignedTrain.effectiveArrival b)%Q.

(** [withEffective] after the in-place sort: the processing order. *)
Definition withEffective (trains : list Train.t) : list AssignedTrain.t :=
  Array_sort byEffectiveArrival (map withEffective1 trains).

(** [pl.nextFreeAt <= train.effectiveArrival] *)
Definition feasible (pl : Platform.t) (train : AssignedTrain.t) : bool :=
  Qle_bool (Platform.nextFreeAt pl) (AssignedTrain.effectiveArrival train).

(** [pl.trains.reduce((acc, t) => acc + (t.status === "delayed" ? 1 : 0), 0)] *)
Definition delayedOn (ts : list AssignedTrain.t) : Q :=
  fold_left
    (fun acc t => (acc + (if Status_eqb (AssignedTrain.status t) Delayed then 1 else 0))%Q)
    ts 0%Q.

Definition score (weights : ScoringWeights.t) (pl : Platform.t)
    (train : AssignedTrain.t) : Q :=
  let gap := Math_max 0 (AssignedTrain.effectiveArrival train - Platform.nextFreeAt pl) in
  let load := inject_Z (Z.of_nat (length (Platform.trains pl))) in
  let delayedCount := delayedOn (Platform.trains pl) in
  (ScoringWeights.idleGap weights * gap
   + ScoringWeights.load weights * load
   + ScoringWeights.delayedSpread weights * delayedCount)%Q.

(** The two variables of the inner loop. *)
Record Best := mkBest { bestIdx : Z; bestScore : ExtQ }.

Definition Best_init : Best := mkBest (-1) PosInf.

(** One iteration of [for (let i = 0; i < platforms.length; i++)]. *)
Definition scan_step (weights : ScoringWeights.t) (train : AssignedTrain.t)
    (i : Z) (pl : Platform.t) (b : Best) : Best :=
  if feasible pl train then
    let s := score weights pl train in
    if lt_ext s (bestScore b) then mkBest i (Fin s) else b
  else b.

(** The inner loop from index [i] on; [rest] is [platforms.slice(i)]. *)
Fixpoint scan (weights : ScoringWeights.t) (train : AssignedTrain.t)
    (rest : list Platform.t) (i : Z) (b : Best) : Best :=
  match rest with
  | [] => b
  | pl :: rest' => scan weights train rest' (i + 1) (scan_step weights train i pl b)
  end.

(** [pl.trains.push(train); pl.nextFreeAt = train.effectiveDeparture] *)
Definition occupy (train : AssignedTrain.t) (pl : Platform.t) : Platform.t :=
  Platform.mk (Platform.id pl) (Platform.trains pl ++ [train])
    (AssignedTrain.effectiveDeparture train).

(** The body of [for (const train of withEffective)].  [platforms[bestIdx]]
    is updated in place; [alter] leaves the list alone for an index out of
    range, where the code would throw ([scan_bestIdx_range]: it never is). *)
Definition place (weights : ScoringWeights.t) (platforms : list Platform.t)
    (train : AssignedTrain.t) : list Platform.t :=
  let b := scan weights train platforms 0 Best_init in
  if (0 <=? bestIdx b)%Z then
    alter (occupy train) (Z.to_nat (bestIdx b)) platforms
  else
    platforms ++
      [Platform.mk (length platforms + 1) [train]
         (AssignedTrain.effectiveDeparture train)].

(** The outer loop over any list of trains, from any platform list. *)
Definition run (weights : ScoringWeights.t) (platforms : list Platform.t)
    (trains : list AssignedTrain.t) : list Platform.t :=
  fold_left (place weights) trains platforms.

Definition assignPlatformsScoreBased (trains : list Train.t)
    (weights : ScoringWeights.t) : list Platform.t :=
  run weights [] (withEffective trains).

(* ------------------------------------------------------------------ *)
(** ** The metrics aggregator and the delay reports of [TrainScheduler] *)

(** A length or a count used as a number. *)
Definition num (n : nat) : Q := inject_Z (Z.of_nat n).

Module PlatformMetric.
Record t := mk {
  endMetric : Q;
  totalDelay : Q;
  delayedCount : nat;
  totalTrains : nat
}.
End PlatformMetric.

(** The body of [for (const pl of platforms)] in [platformMetrics]. *)
Definition metricsOf (pl : Platform.t) : PlatformMetric.t :=
  let totalTrains := length (Platform.trains pl) in
  let totalDelay :=
    fold_left (fun sum t => (sum + AssignedTrain.delay t)%Q) (Platform.trains pl) 0%Q in
  let delayedCount :=
    length (List.filter (fun t => Status_eqb (AssignedTrain.status t) Delayed)
              (Platform.trains pl)) in
  let endMetric :=
    if (0 <? totalTrains)%nat
    then ((totalDelay + num delayedCount) / num totalTrains)%Q
    else 0%Q in
  PlatformMetric.mk endMetric totalDelay delayedCount totalTrains.

(** The [Map<number, ...>] keyed by [pl.id]; a later [set] of the same key
    replaces the earlier one. *)
Definition platformMetrics (platforms : list Platform.t) : gmap nat PlatformMetric.t :=
  fold_left (fun map pl => <[Platform.id pl := metricsOf pl]> map) platforms ∅.

(** [const metrics = platformMetrics.get(pl.id);
     const endMetric = metrics ? metrics.endMetric : 0] *)
Definition endMetricOf (metrics : gmap nat PlatformMetric.t) (pl : Platform.t) : Q :=
  match metrics !! Platform.id pl with
  | Some m => PlatformMetric.endMetric m
  | None => 0%Q
  end.

(** An entry of [delayComparisonData], the data of the "Delay Comparison
    (Train Details vs Reach Table)" chart. *)
Module DelayComparison.
Record t := mk {
  train : string;
  fullName : string;
  prevDelay : Q;
  newDelay : Q
}.
End DelayComparison.

(** The local [reachTableNewDelay]. *)
Definition reachTableNewDelay (endMetric prev : Q) : Q :=
  Math_abs (endMetric - prev).

Definition delayComparisonEntry (endMetric : Q) (t : AssignedTrain.t) : DelayComparison.t :=
  let prev := AssignedTrain.delay t in
  DelayComparison.mk (AssignedTrain.id t) (AssignedTrain.name t) prev
    (Number_toFixed2 (reachTableNewDelay endMetric prev)).

Definition delayComparisonData (platforms : list Platform.t)
    (metrics : gmap nat PlatformMetric.t) : list DelayComparison.t :=
  flat_map
    (fun pl => map (delayComparisonEntry (endMetricOf metrics pl)) (Platform.trains pl))
    platforms.

(** The numbers behind a row of the "Scheduling Metrics" table.  The last
    cell prints [newDelay.toFixed(2)]. *)
Module SchedulingMetric.
Record t := mk {
  name : string;
  platform : nat;
  prevDelay : Q;
  endMetric : Q;
  newDelay : Q
}.
End SchedulingMetric.

Definition schedulingMetricRow (pl : Platform.t) (endMetric : Q)
    (t : AssignedTrain.t) : SchedulingMetric.t :=
  let prevDelay := AssignedTrain.delay t in
  let newDelay := Math_max 0 (prevDelay - endMetric) in
  SchedulingMetric.mk (AssignedTrain.name t) (Platform.id pl) prevDelay endMetric newDelay.

Definition schedulingMetrics (platforms : list Platform.t)
    (metrics : gmap nat PlatformMetric.t) : list SchedulingMetric.t :=
  flat_map
    (fun pl => map (schedulingMetricRow pl (endMetricOf metrics pl)) (Platform.trains pl))
    platforms.

(** The numbers behind a row of the "Reach Time" table.  The "New Delay"
    cell prints [newDelayAbs.toFixed(2)]. *)
Module ReachTime.
Record t := mk {
  name : string;
  platform : nat;
  oldReachTime : Q;
  newReachTime : Q;
  newDelayDelta : Q;
  newDelayAbs : Q
}.
End ReachTime.

Definition reachTimeRow (pl : Platform.t) (endMetric : Q)
    (t : AssignedTrain.t) : ReachTime.t :=
  let prevDelay := AssignedTrain.delay t in
  let oldReachTime := (AssignedTrain.departure t + prevDelay)%Q in
  let newReachTime := (AssignedTrain.departure t + endMetric)%Q in
  let newDelayDelta := (newReachTime - oldReachTime)%Q in
  let newDelayAbs := Math_abs (newReachTime - oldReachTime) in
  ReachTime.mk (AssignedTrain.name t) (Platform.id pl)
    oldReachTime newReachTime newDelayDelta newDelayAbs.

Definition reachTimes (platforms : list Platform.t)
    (metrics : gmap nat PlatformMetric.t) : list ReachTime.t :=
  flat_map
    (fun pl => map (reachTimeRow pl (endMetricOf metrics pl)) (Platform.trains pl))
    platforms.

(** The trains shown for the platforms: [platforms.flatMap(pl => pl.trains)]. *)
Definition assigned (platforms : list Platform.t) : list AssignedTrain.t :=
  flat_map Platform.trains platforms.

(* ------------------------------------------------------------------ *)
(** ** Example data *)

(** The three vehicles of the worked example. *)
Definition exA : Train.t := Train.mk "A" "A" 0 20 0 OnTime.
Definition exB : Train.t := Train.mk "B" "B" 10 30 0 OnTime.
Definition exC : Train.t := Train.mk "C" "C" 25 40 0 OnTime.

(** One delayed train followed by two that are on time: all three share a
    platform, whose [endMetric] is 11/3. *)
Definition exD1 : Train.t := Train.mk "T1" "Red Line 101" 0 10 10 Delayed.
Definition exD2 : Train.t := Train.mk "T2" "Coastal 202" 30 40 0 OnTime.
Definition exD3 : Train.t := Train.mk "T3" "Express 303" 60 70 0 OnTime.

(** Two platforms that are free from minute 20 on and hold one train each:
    for a train arriving at minute 25 both are feasible with the same score. *)
Definition exB2 : Train.t := Train.mk "B" "B" 5 20 0 OnTime.
Definition exTie : list Platform.t :=
  [ Platform.mk 1 [withEffective1 exA] 20;
    Platform.mk 2 [withEffective1 exB2] 20 ].

(** A platform holding a train delayed by ten minutes and one on time. *)
Definition exP : Platform.t :=
  Platform.mk 1
    [ withEffective1 (Train.mk "T1" "Red Line 101" 10 40 10 Delayed);
      withEffective1 (Train.mk "T3" "Express 303" 60 100 0 OnTime) ]
    100.

(* ------------------------------------------------------------------ *)
(** ** Predicates in which the properties are stated *)

Section Selection.
Context (weights : ScoringWeights.t) (train : AssignedTrain.t).

(** Platform [i] is feasible, no feasible platform scores less, and every
    feasible platform before it scores more. *)
Definition first_minimum (platforms : list Platform.t) (i : nat) : Prop :=
  exists pl,
    platforms !! i = Some pl /\
    feasible pl train = true /\
    (forall k pk, platforms !! k = Some pk -> feasible pk train = true ->
       (score weights pl train <= score weights pk train)%Q) /\
    (forall k pk, (k < i)%nat -> platforms !! k = Some pk ->
       feasible pk train = true ->
       (score weights pl train < score weights pk train)%Q).

(** The variables of the inner loop once the platforms [seen] are behind. *)
Definition scanned (seen : list Platform.t) (b : Best) : Prop :=
  (bestIdx b = (-1)%Z /\ bestScore b = PosInf /\
   Forall (fun pl => feasible pl train = false) seen)
  \/
  (exists i pl,
     bestIdx b = Z.of_nat i /\ seen !! i = Some pl /\
     bestScore b = Fin (score weights pl train) /\
     first_minimum seen i).
End Selection.

(** A platform's trains do not overlap: each leaves before the next comes. *)
Definition no_overlap (pl : Platform.t) : Prop :=
  Sorted
    (fun a b =>
       (AssignedTrain.effectiveDeparture a <= AssignedTrain.effectiveArrival b)%Q)
    (Platform.trains pl).

(** The platform at position [i] (from 0) has id [i + 1], and is free from
    the effective departure of its last train. *)
Definition platform_ok (i : nat) (pl : Platform.t) : Prop :=
  Platform.id pl = S i /\
  exists t, last (Platform.trains pl) = Some t /\
            Platform.nextFreeAt pl = AssignedTrain.effectiveDeparture t.

Definition platforms_ok (platforms : list Platform.t) : Prop :=
  forall i pl, platforms !! i = Some pl -> platform_ok i pl.

(** Sum of a list of numbers, from the right. *)
Definition Qsum (l : list Q) : Q := foldr Qplus 0%Q l.

(** The number of trains of a given status. *)
Fixpoint count_status (s : Status) (ts : list AssignedTrain.t) : nat :=
  match ts with
  | [] => 0
  | t :: ts' =>
      (if Status_eqb (AssignedTrain.status t) s then 1 else 0) + count_status s ts'
  end.

(* ------------------------------------------------------------------ *)
(** ** The same function on a store of objects

    Objects and arrays live in a store and are passed by reference, as in
    the running program.  A reference is an index into the store; a new
    object takes the next free index.  A computation is a function from the
    store to a result and a new store, or to nothing when the code would
    throw (a reference to an object of the wrong shape). *)

Module Heap.

Abbreviation ref := nat.

Inductive obj :=
| TrainObj (t : Train.t)
| AssignedObj (t : AssignedTrain.t)
| PlatformObj (id : nat) (trains : ref) (nextFreeAt : Q)
| ArrayObj (elems : list ref).

Abbreviation store := (list obj).

Definition M (A : Type) : Type := store -> option (A * store).

Definition ret {A} (a : A) : M A := fun h => Some (a, h).

Definition bind {A B} (m : M A) (k : A -> M B) : M B :=
  fun h =>
    match m h with
    | Some (a, h') => k a h'
    | None => None
    end.

Definition throw {A} : M A := fun _ => None.

Notation "x <- m ;; k" := (bind m (fun x => k))
  (at level 100, m at next level, right associativity).
Notation "m ;; k" := (bind m (fun _ => k))
  (at level 100, right associativity).

(** A new object. *)
Definition new (o : obj) : M ref := fun h => Some (length h, h ++ [o]).

Definition get (r : ref) : M obj :=
  fun h =>
    match h !! r with
    | Some o => Some (o, h)
    | None => None
    end.

Definition put (r : ref) (o : obj) : M unit :=
  fun h =>
    match h !! r with
    | Some _ => Some (tt, <[r := o]> h)
    | None => None
    end.

Definition getTrain (r : ref) : M Train.t :=
  o <- get r ;; match o with TrainObj t => ret t | _ => throw end.

Definition getAssigned (r : ref) : M AssignedTrain.t :=
  o <- get r ;; match o with AssignedObj t => ret t | _ => throw end.

Definition getArray (r : ref) : M (list ref) :=
  o <- get r ;; match o with ArrayObj l => ret l | _ => throw end.

Definition getPlatform (r : ref) : M (nat * ref * Q) :=
  o <- get r ;;
  match o with PlatformObj id tr nf => ret (id, tr, nf) | _ => throw end.

Fixpoint mapM {A B} (f : A -> M B) (l : list A) : M (list B) :=
  match l with
  | [] => ret []
  | x :: l' => y <- f x ;; ys <- mapM f l' ;; ret (y :: ys)
  end.

Fixpoint forEach {A} (f : A -> M unit) (l : list A) : M unit :=
  match l with
  | [] => ret tt
  | x :: l' => f x ;; forEach f l'
  end.

(** [trains.map((t) => ({ ...t, effectiveArrival, effectiveDeparture }))]:
    a new object per element and a new array. *)
Definition map_withEffective (trains : ref) : M ref :=
  elems <- getArray trains ;;
  copies <- mapM (fun r => t <- getTrain r ;; new (AssignedObj (withEffective1 t))) elems ;;
  new (ArrayObj copies).

(** [withEffective.sort((a, b) => a.effectiveArrival - b.effectiveArrival)]:
    the array is reordered in place. *)
Definition sort_byEffectiveArrival (arr : ref) : M unit :=
  elems <- getArray arr ;;
  objs <- mapM getAssigned elems ;;
  put arr
    (ArrayObj
       (map fst
          (Array_sort (fun x y => byEffectiveArrival (snd x) (snd y))
             (zip elems objs)))).

(** What the inner loop reads of a platform: its fields and its trains. *)
Definition viewPlatform (p : ref) : M Platform.t :=
  f <- getPlatform p ;;
  let '(id, tr, nf) := f in
  elems <- getArray tr ;;
  ts <- mapM getAssigned elems ;;
  ret (Platform.mk id ts nf).

Definition viewPlatforms (platforms : ref) : M (list Platform.t) :=
  elems <- getArray platforms ;; mapM viewPlatform elems.

(** The body of [for (const train of withEffective)]: the inner loop only
    reads, and is the scan of the pure model on what it reads; the two
    branches after it write. *)
Definition place (weights : ScoringWeights.t) (platforms : ref) (train : ref) : M unit :=
  t <- getAssigned train ;;
  view <- viewPlatforms platforms ;;
  let b := scan weights t view 0 Best_init in
  elems <- getArray platforms ;;
  if (0 <=? bestIdx b)%Z then
    match elems !! Z.to_nat (bestIdx b) with
    | Some pl =>
        f <- getPlatform pl ;;
        let '(id, tr, _) := f in
        trs <- getArray tr ;;
        put tr (ArrayObj (trs ++ [train])) ;;
        put pl (PlatformObj id tr (AssignedTrain.effectiveDeparture t))
    | None => throw
    end
  else
    tr <- new (ArrayObj [train]) ;;
    pl <- new (PlatformObj (length elems + 1) tr (AssignedTrain.effectiveDeparture t)) ;;
    put platforms (ArrayObj (elems ++ [pl])).

Definition assignPlatformsScoreBased (trains : ref) (weights : ScoringWeights.t) : M ref :=
  withEffective <- map_withEffective trains ;;
  sort_byEffectiveArrival withEffective ;;
  platforms <- new (ArrayObj []) ;;
  elems <- getArray withEffective ;;
  forEach (place weights platforms) elems ;;
  ret platforms.

(** The caller's array [trains] of [Train] objects, as found in a store. *)
Definition holds_trains (h : store) (trains : ref) (ts : list Train.t) : Prop :=
  exists elems,
    h !! trains = Some (ArrayObj elems) /\
    Forall2 (fun r t => h !! r = Some (TrainObj t)) elems ts.

(** The platform object [fst s], with its array [snd s] of trains, stands
    for [pl] in the store [h]. *)
Definition platform_at (h : store) (s : ref * ref) (pl : Platform.t) : Prop :=
  h !! fst s
  = Some (PlatformObj (Platform.id pl) (snd s) (Platform.nextFreeAt pl)) /\
  exists trefs,
    h !! snd s = Some (ArrayObj trefs) /\
    Forall2 (fun r t => h !! r = Some (AssignedObj t)) trefs (Platform.trains pl).

(** The array [platforms] stands for the list [ps]: its elements are the
    platform objects [map fst shape], whose train arrays are
    [map snd shape]; no object or array is shared between two platforms,
    and all of them were made after the first [n0] objects of the store. *)
Definition platforms_at (n0 : nat) (h : store) (platforms : ref)
    (ps : list Platform.t) : Prop :=
  exists shape : list (ref * ref),
    h !! platforms = Some (ArrayObj (map fst shape)) /\
    Forall2 (platform_at h) shape ps /\
    NoDup (map fst shape) /\
    NoDup (platforms :: map snd shape) /\
    Forall (fun r => n0 <= r) (platforms :: map fst shape ++ map snd shape).

(** From [h] to [h']: the first [n0] objects are as they were, and a train
    with effective times stays what it is. *)
Definition stable (n0 : nat) (h h' : store) : Prop :=
  (forall r, r < n0 -> h' !! r = h !! r) /\
  (forall r t, h !! r = Some (AssignedObj t) -> h' !! r = Some (AssignedObj t)).

(** A store holding the three vehicles of the worked example and the array
    of them, at reference 3. *)
Definition exStore : store :=
  [TrainObj exA; TrainObj exB; TrainObj exC; ArrayObj [0; 1; 2]]%nat.

End Heap.

(* ------------------------------------------------------------------ *)
(** ** The rest of [train-scheduler.tsx]: labels, initial trains, the live
       update and the counters *)

(** [String(n)] for a whole number [n]: its decimal digits, after a minus
    sign when it is negative.  The string of a fraction is not modelled. *)
Definition String_of (n : Z) : string := NilZero.string_of_int (Z.to_int n).

(** [s.padStart(2, "0")] *)
Definition padStart2 (s : string) : string :=
  match String.length s with
  | 0 => String.append "00" s
  | 1 => String.append "0" s
  | _ => s
  end.

(** [Math.round(x)]: the nearest whole number, the upper one on a tie. *)
Definition Math_round (x : Q) : Z := Qfloor (x + (1 # 2)).

(** [minutesToLabel], on a whole number of minutes.  [/] is [Math.floor] of
    the quotient and [Z.rem] is JavaScript's [%]. *)
Definition minutesToLabel (minFromStart : Z) : string :=
  let totalMinutes := (8 * 60 + minFromStart)%Z in
  let h := (totalMinutes / 60)%Z in
  let m := Z.rem totalMinutes 60 in
  String.append (padStart2 (String_of h))
    (String.append ":" (padStart2 (String_of m))).

Definition minutesToLabelWithSeconds (minFromStart : Q) : string :=
  let baseSeconds := (8 * 60 * 60)%Z in
  let totalSeconds := (Z.max 0 (Math_round (minFromStart * 60)) + baseSeconds)%Z in
  let h := (totalSeconds / 3600)%Z in
  let m := (Z.rem totalSeconds 3600 / 60)%Z in
  let s := Z.rem totalSeconds 60 in
  String.append (padStart2 (String_of h))
    (String.append ":"
       (String.append (padStart2 (String_of m))
          (String.append ":" (padStart2 (String_of s))))).

Definition formatMinSec (mins : Q) : string :=
  let totalSeconds := Z.max 0 (Math_round (mins * 60)) in
  let m := (totalSeconds / 60)%Z in
  let s := Z.rem totalSeconds 60 in
  String.append (String_of m) (String.append ":" (padStart2 (String_of s))).

Definition initializeTrains : list Train.t :=
  [ Train.mk "T1" "Red Line 101" 10 40 0 OnTime;
    Train.mk "T2" "Coastal 202" 25 70 0 OnTime;
    Train.mk "T3" "Express 303" 60 100 0 OnTime;
    Train.mk "T4" "Metro 404" 80 120 0 OnTime;
    Train.mk "T5" "Regional 505" 110 150 0 OnTime;
    Train.mk "T6" "CityLink 606" 140 175 0 OnTime;
    Train.mk "T7" "Valley 707" 170 205 0 OnTime;
    Train.mk "T8" "Summit 808" 195 235 0 OnTime;
    Train.mk "T9" "Harbor 909" 0 20 0 OnTime;
    Train.mk "T10" "Forest 919" 18 55 0 OnTime;
    Train.mk "T11" "River 929" 45 85 0 OnTime;
    Train.mk "T12" "Garden 939" 90 125 0 OnTime;
    Train.mk "T13" "Meadow 949" 105 140 0 OnTime;
    Train.mk "T14" "Cedar 959" 130 165 0 OnTime;
    Train.mk "T15" "Pine 969" 155 190 0 OnTime;
    Train.mk "T16" "Oak 979" 165 200 0 OnTime;
    Train.mk "T17" "Spruce 989" 200 235 0 OnTime;
    Train.mk "T18" "Willow 999" 210 240 0 OnTime ].

(** The [prev.map] of [tick].  [Math.random] is the stream [random], of
    which [k] numbers are used up; it is asked once for each train whose id
    is in [delayedIds], in list order. *)
Fixpoint tick_map (delayedIds : gset string) (random : nat -> Q) (k : nat)
    (prev : list Train.t) : list Train.t :=
  match prev with
  | [] => []
  | t :: rest =>
      if decide (Train.id t ∈ delayedIds) then
        let newDelay := (5 + inject_Z (Qfloor (random k * 14)))%Q in
        Train.mk (Train.id t) (Train.name t) (Train.arrival t) (Train.departure t)
          newDelay Delayed
        :: tick_map delayedIds random (S k) rest
      else
        Train.mk (Train.id t) (Train.name t) (Train.arrival t) (Train.departure t)
          0 OnTime
        :: tick_map delayedIds random k rest
  end.

(** The state update of [tick].  [shuffled] is what the sort with the random
    comparator leaves of [ids], some rearrangement of it. *)
Definition tick (shuffled : list string) (random : nat -> Q)
    (prev : list Train.t) : list Train.t :=
  let delayedIds : gset string := list_to_set (take 2 shuffled) in
  tick_map delayedIds random 0 prev.

(** [trains.filter((t) => t.status === "delayed").length] and
    [trains.length - delayedCount]. *)
Definition delayedCount (trains : list Train.t) : nat :=
  length (List.filter (fun t => Status_eqb (Train.status t) Delayed) trains).

Definition onTimeCount (trains : list Train.t) : Z :=
  (Z.of_nat (length trains) - Z.of_nat (delayedCount trains))%Z.

(** A number from 0 to 99 written with two decimal digits. *)
Definition two_digits (n : Z) : string :=
  String.String (Ascii.ascii_of_nat (48 + Z.to_nat (n / 10)))
    (String.String (Ascii.ascii_of_nat (48 + Z.to_nat (n mod 10)))
       String.EmptyString).

(* ------------------------------------------------------------------ *)
(** ** The arithmetic on doubles

    The same code with a [number] as what it is at run time, an IEEE 754
    binary64 value ([PrimFloat.float]): sums, products and quotients are
    rounded, can overflow to an infinity and can be NaN, and a comparison
    with NaN is false.  The definitions follow the ones above line by line;
    only the numbers differ. *)

Module Double.
Import PrimFloat.

#[local] Set Warnings "-inexact-float".

Module Train.
Record t := mk {
  id : string;
  name : string;
  arrival : float;
  departure : float;
  delay : float;
  status : Status
}.
End Train.

Module AssignedTrain.
Record t := mk {
  train : Train.t;
  effectiveArrival : float;
  effectiveDeparture : float
}.
Definition id (a : t) := Train.id (train a).
Definition name (a : t) := Train.name (train a).
Definition arrival (a : t) := Train.arrival (train a).
Definition departure (a : t) := Train.departure (train a).
Definition delay (a : t) := Train.delay (train a).
Definition status (a : t) := Train.status (train a).
End AssignedTrain.

Module Platform.
Record t := mk {
  id : nat;
  trains : list AssignedTrain.t;
  nextFreeAt : float
}.
End Platform.

Module ScoringWeights.
Record t := mk {
  idleGap : float;
  load : float;
  delayedSpread : float
}.
End ScoringWeights.

Definition DEFAULT_WEIGHTS : ScoringWeights.t :=
  ScoringWeights.mk 1.0 0.3 0.5.

(** A whole number as a double, from its binary digits; every step is exact
    for a magnitude up to 2^53. *)
Fixpoint of_pos (p : positive) : float :=
  match p with
  | xH => 1
  | xO q => (2 * of_pos q)%float
  | xI q => (2 * of_pos q + 1)%float
  end.

Definition of_Z (z : Z) : float :=
  match z with
  | Z0 => 0
  | Zpos p => of_pos p
  | Zneg p => (- of_pos p)%float
  end.

(** A length or a count as a double. *)
Definition num (n : nat) : float := of_Z (Z.of_nat n).

(** [Math.max(a, b)]: NaN when either is NaN; of the two zeros, +0 is the
    larger. *)
Definition Math_max (a b : float) : float :=
  if is_nan a || is_nan b then nan
  else if (a <? b)%float then b
  else if (b <? a)%float then a
  else match classify a with
       | FloatClass.NZero => b
       | _ => a
       end.

Definition Math_abs (x : float) : float := abs x.

(** [Array.prototype.sort] with a comparator that returns a number: an
    element moves behind another only when the comparator's value for the two
    is greater than 0; a NaN value counts as 0. *)
Section ArraySort.
Context {A : Type} (comparefn : A -> A -> float).

Fixpoint sort_insert (x : A) (l : list A) : list A :=
  match l with
  | [] => [x]
  | y :: l' =>
      if (0 <? comparefn x y)%float then y :: sort_insert x l'
      else x :: y :: l'
  end.

Definition Array_sort (l : list A) : list A := foldr sort_insert [] l.
End ArraySort.

Definition withEffective1 (t : Train.t) : AssignedTrain.t :=
  AssignedTrain.mk t
    (Train.arrival t + Train.delay t)%float
    (Train.departure t + Train.delay t)%float.

Definition byEffectiveArrival (a b : AssignedTrain.t) : float :=
  (AssignedTrain.effectiveArrival a - AssignedTrain.effectiveArrival b)%float.

Definition withEffective (trains : list Train.t) : list AssignedTrain.t :=
  Array_sort byEffectiveArrival (map withEffective1 trains).

Definition feasible (pl : Platform.t) (train : AssignedTrain.t) : bool :=
  (Platform.nextFreeAt pl <=? AssignedTrain.effectiveArrival train)%float.

Definition delayedOn (ts : list AssignedTrain.t) : float :=
  fold_left
    (fun acc t =>
       (acc + (if Status_eqb (AssignedTrain.status t) Delayed then 1 else 0))%float)
    ts 0%float.

Definition score (weights : ScoringWeights.t) (pl : Platform.t)
    (train : AssignedTrain.t) : float :=
  let gap := Math_max 0 (AssignedTrain.effectiveArrival train - Platform.nextFreeAt pl) in
  let load := num (length (Platform.trains pl)) in
  let delayedCount := delayedOn (Platform.trains pl) in
  (ScoringWeights.idleGap weights * gap
   + ScoringWeights.load weights * load
   + ScoringWeights.delayedSpread weights * delayedCount)%float.

Record Best := mkBest { bestIdx : Z; bestScore : float }.

Definition Best_init : Best := mkBest (-1) infinity.

Definition scan_step (weights : ScoringWeights.t) (train : AssignedTrain.t)
    (i : Z) (pl : Platform.t) (b : Best) : Best :=
  if feasible pl train then
    let s := score weights pl train in
    if (s <? bestScore b)%float then mkBest i s else b
  else b.

Fixpoint scan (weights : ScoringWeights.t) (train : AssignedTrain.t)
    (rest : list Platform.t) (i : Z) (b : Best) : Best :=
  match rest with
  | [] => b
  | pl :: rest' => scan weights train rest' (i + 1) (scan_step weights train i pl b)
  end.

Definition occupy (train : AssignedTrain.t) (pl : Platform.t) : Platform.t :=
  Platform.mk (Platform.id pl) (Platform.trains pl ++ [train])
    (AssignedTrain.effectiveDeparture train).

Definition place (weights : ScoringWeights.t) (platforms : list Platform.t)
    (train : AssignedTrain.t) : list Platform.t :=
  let b := scan weights train platforms 0 Best_init in
  if (0 <=? bestIdx b)%Z then
    alter (occupy train) (Z.to_nat (bestIdx b)) platforms
  else
    platforms ++
      [Platform.mk (length platforms + 1) [train]
         (AssignedTrain.effectiveDeparture train)].

Definition run (weights : ScoringWeights.t) (platforms : list Platform.t)
    (trains : list AssignedTrain.t) : list Platform.t :=
  fold_left (place weights) trains platforms.

Definition assignPlatformsScoreBased (trains : list Train.t)
    (weights : ScoringWeights.t) : list Platform.t :=
  run weights [] (withEffective trains).

Definition assigned (platforms : list Platform.t) : list AssignedTrain.t :=
  flat_map Platform.trains platforms.

(** *** The metrics and the two delay reports *)

Module PlatformMetric.
Record t := mk {
  endMetric : float;
  totalDelay : float;
  delayedCount : nat;
  totalTrains : nat
}.
End PlatformMetric.

Definition metricsOf (pl : Platform.t) : PlatformMetric.t :=
  let totalTrains := length (Platform.trains pl) in
  let totalDelay :=
    fold_left (fun sum t => (sum + AssignedTrain.delay t)%float)
      (Platform.trains pl) 0%float in
  let delayedCount :=
    length (List.filter (fun t => Status_eqb (AssignedTrain.status t) Delayed)
              (Platform.trains pl)) in
  let endMetric :=
    if (0 <? totalTrains)%nat
    then ((totalDelay + num delayedCount) / num totalTrains)%float
    else 0%float in
  PlatformMetric.mk endMetric totalDelay delayedCount totalTrains.

Definition platformMetrics (platforms : list Platform.t) : gmap nat PlatformMetric.t :=
  fold_left (fun map pl => <[Platform.id pl := metricsOf pl]> map) platforms ∅.

Definition endMetricOf (metrics : gmap nat PlatformMetric.t) (pl : Platform.t) : float :=
  match metrics !! Platform.id pl with
  | Some m => PlatformMetric.endMetric m
  | None => 0%float
  end.

(** The integer [n] for which [n / 100] is nearest to the magnitude of a
    finite double, the larger one on a tie: the digits [toFixed(2)] prints.
    The double [m * 2^e] is taken at its exact value. *)
Definition hundredths (x : float) : Z :=
  match FloatOps.Prim2SF x with
  | SpecFloat.S754_finite _ m e =>
      if (0 <=? e)%Z then (100 * Z.pos m * 2 ^ e)%Z
      else ((200 * Z.pos m + 2 ^ (- e)) / 2 ^ (- e + 1))%Z
  | _ => 0%Z
  end.

(** [Number(x.toFixed(2))].  [toFixed] prints [NaN] and the infinities by
    name, and [Number] reads them back.  The printed decimal is within 0.005
    of the magnitude.  Above 2^46 the doubles next to [x] are 2^-6 away or
    more, and 2^46 is a whole number, so from 2^46 on the double nearest to
    the printed decimal is [x] itself (from 10^21 on [toFixed] prints the
    number as [String] does, which [Number] reads back as [x] too).  Below
    2^46, [hundredths x] is less than 2^53 and [Number] gives the double
    nearest to [hundredths x / 100], which is what the division of the two
    doubles gives; the sign is printed in front. *)
Definition Number_toFixed2 (x : float) : float :=
  if is_nan x then nan
  else if (70368744177664 <=? abs x)%float then x
  else
    let r := (of_Z (hundredths x) / 100)%float in
    if (x <? 0)%float then (- r)%float else r.

Module DelayComparison.
Record t := mk {
  train : string;
  fullName : string;
  prevDelay : float;
  newDelay : float
}.
End DelayComparison.

Definition reachTableNewDelay (endMetric prev : float) : float :=
  Math_abs (endMetric - prev).

Definition delayComparisonEntry (endMetric : float) (t : AssignedTrain.t) : DelayComparison.t :=
  let prev := AssignedTrain.delay t in
  DelayComparison.mk (AssignedTrain.id t) (AssignedTrain.name t) prev
    (Number_toFixed2 (reachTableNewDelay endMetric prev)).

Definition delayComparisonData (platforms : list Platform.t)
    (metrics : gmap nat PlatformMetric.t) : list DelayComparison.t :=
  flat_map
    (fun pl => map (delayComparisonEntry (endMetricOf metrics pl)) (Platform.trains pl))
    platforms.

Module SchedulingMetric.
Record t := mk {
  name : string;
  platform : nat;
  prevDelay : float;
  endMetric : float;
  newDelay : float
}.
End SchedulingMetric.

Definition schedulingMetricRow (pl : Platform.t) (endMetric : float)
    (t : AssignedTrain.t) : SchedulingMetric.t :=
  let prevDelay := AssignedTrain.delay t in
  let newDelay := Math_max 0 (prevDelay - endMetric) in
  SchedulingMetric.mk (AssignedTrain.name t) (Platform.id pl) prevDelay endMetric newDelay.

Definition schedulingMetrics (platforms : list Platform.t)
    (metrics : gmap nat PlatformMetric.t) : list SchedulingMetric.t :=
  flat_map
    (fun pl => map (schedulingMetricRow pl (endMetricOf metrics pl)) (Platform.trains pl))
    platforms.

(** *** The timeline *)

Definition MINUTE_START : float := 0.
Definition MINUTE_END : float := 240.

(** The block of a train on the timeline, in percent of its width. *)
Definition leftPct (t : AssignedTrain.t) : float :=
  let minStart := MINUTE_START in
  let total := (MINUTE_END - minStart)%float in
  ((AssignedTrain.effectiveArrival t - minStart) / total * 100)%float.

Definition widthPct (t : AssignedTrain.t) : float :=
  let total := (MINUTE_END - MINUTE_START)%float in
  ((AssignedTrain.effectiveDeparture t - AssignedTrain.effectiveArrival t)
   / total * 100)%float.

(** *** Predicates and example data *)

(** A platform the scan can pick: feasible, with a score below +Infinity
    (so not NaN either). *)
Definition eligible (weights : ScoringWeights.t) (train : AssignedTrain.t)
    (pl : Platform.t) : bool :=
  feasible pl train && (score weights pl train <? infinity)%float.

(** Platform [i] can be picked, no platform that can be picked scores less,
    and each one before it that can be picked scores more. *)
Definition first_minimum (weights : ScoringWeights.t) (train : AssignedTrain.t)
    (platforms : list Platform.t) (i : nat) : Prop :=
  exists pl,
    platforms !! i = Some pl /\
    eligible weights train pl = true /\
    (forall k pk, platforms !! k = Some pk -> eligible weights train pk = true ->
       (score weights pk train <? score weights pl train)%float = false) /\
    (forall k pk, (k < i)%nat -> platforms !! k = Some pk ->
       eligible weights train pk = true ->
       (score weights pl train <? score weights pk train)%float = true).

Definition scanned (weights : ScoringWeights.t) (train : AssignedTrain.t)
    (seen : list Platform.t) (b : Best) : Prop :=
  (bestIdx b = (-1)%Z /\ bestScore b = infinity /\
   Forall (fun pl => eligible weights train pl = false) seen)
  \/
  (exists i pl,
     bestIdx b = Z.of_nat i /\ seen !! i = Some pl /\
     bestScore b = score weights pl train /\
     first_minimum weights train seen i).

(** The ids of the platforms are their positions, counted from 1. *)
Definition ids_ok (platforms : list Platform.t) : Prop :=
  forall i pl, platforms !! i = Some pl -> Platform.id pl = S i.

(** A train on time, without delay, from [arrival] to [departure]. *)
Definition onTime (id : string) (arrival departure : float) : Train.t :=
  Train.mk id id arrival departure 0 OnTime.

(** Weights under which a gap of ten minutes already has a score beyond the
    largest double. *)
Definition exHuge : ScoringWeights.t := ScoringWeights.mk 1e308 0.3 0.5.

(** Two platforms holding one train each, both free from minute 20. *)
Definition exTie : list Platform.t :=
  [ Platform.mk 1 [withEffective1 (onTime "A" 0 20)] 20;
    Platform.mk 2 [withEffective1 (onTime "B" 5 20)] 20 ].

(** One train delayed by ten minutes and two on time, one after the other. *)
Definition exD : list Train.t :=
  [ Train.mk "T1" "Red Line 101" 0 10 10 Delayed;
    onTime "T2" 30 40;
    onTime "T3" 60 70 ].

(** The weights above meet three trains: A and B overlap, C comes after
    both have left. *)
Definition exABC : list Train.t :=
  [ onTime "A" 0 20; onTime "B" 5 20; onTime "C" 30 40 ].


(** The whole numbers from [lo] to [hi]. *)
Fixpoint whole_from (lo : Z) (n : nat) : list Z :=
  match n with
  | O => []
  | S n' => lo :: whole_from (lo + 1) n'
  end.

Definition whole_range (lo hi : Z) : list Z :=
  whole_from lo (Z.to_nat (hi - lo + 1)).

End Double.

(* ------------------------------------------------------------------ *)
(** * Properties *)

(** ** Numbers *)

Lemma Qltb_lt (x y : Q) : Qltb x y = true <-> (x < y)%Q.
Proof.
  unfold Qltb. rewrite negb_true_iff, <- not_true_iff_false, Qle_bool_iff.
  split; [apply Qnot_le_lt | apply Qlt_not_le].
Qed.

Lemma Qltb_ge (x y : Q) : Qltb x y = false <-> (y <= x)%Q.
Proof.
  unfold Qltb. rewrite negb_false_iff. apply Qle_bool_iff.
Qed.


(** ** The stable sort *)

Section ArraySortFacts.
Context {A : Type} (key : A -> Q).

Lemma sort_insert_perm (cmp : A -> A -> Q) x l :
  Permutation (sort_insert cmp x l) (x :: l).
Proof.
  induction l as [|y l IH]; simpl; [reflexivity|].
  destruct (Qle_bool (cmp x y) 0); [reflexivity|].
  rewrite IH. apply perm_swap.
Qed.

Lemma Array_sort_perm (cmp : A -> A -> Q) l :
  Permutation (Array_sort cmp l) l.
Proof.
  induction l as [|x l IH]; simpl; [reflexivity|].
  rewrite sort_insert_perm. by constructor.
Qed.




End ArraySortFacts.

Lemma withEffective_perm trains :
  Permutation (withEffective trains) (map withEffective1 trains).
Proof. apply Array_sort_perm. Qed.

(** ** The inner loop *)

Section Scan.
Context (weights : ScoringWeights.t) (train : AssignedTrain.t).

Lemma scanned_init : scanned weights train [] Best_init.
Proof. left. by repeat split. Qed.

Lemma first_minimum_snoc_keep seen i pl :
  first_minimum weights train seen i ->
  (feasible pl train = true ->
   forall pi, seen !! i = Some pi ->
     (score weights pi train <= score weights pl train)%Q) ->
  first_minimum weights train (seen ++ [pl]) i.
Proof.
  intros (pi & Hi & Hf & Hle & Hlt) Hpl.
  exists pi. split; [by apply lookup_app_l_Some|]. split; [done|]. split.
  - intros k pk Hk Hfk.
    apply lookup_app_Some in Hk as [Hk|[_ Hk]]; [by eapply Hle|].
    apply list_lookup_singleton_Some in Hk as [_ <-]. by apply Hpl.
  - intros k pk Hki Hk Hfk.
    apply lookup_lt_Some in Hi.
    rewrite lookup_app_l in Hk by lia. by eapply Hlt.
Qed.

Lemma scanned_step seen pl b :
  scanned weights train seen b ->
  scanned weights train (seen ++ [pl])
    (scan_step weights train (Z.of_nat (length seen)) pl b).
Proof.
  intros Hb. unfold scan_step.
  destruct (feasible pl train) eqn:Hf.
  - destruct Hb as [(Hi & Hs & Hnone)|(i & pi & Hi & Hpi & Hs & Hmin)].
    + rewrite Hs. cbn [lt_ext].
      right. exists (length seen), pl. split; [done|].
      split; [by rewrite list_lookup_middle|]. split; [done|].
      exists pl. split; [by rewrite list_lookup_middle|]. split; [done|].
      split.
      * intros k pk Hk Hfk.
        apply lookup_app_Some in Hk as [Hk|[_ Hk]].
        -- rewrite Forall_lookup in Hnone. specialize (Hnone _ _ Hk). congruence.
        -- apply list_lookup_singleton_Some in Hk as [_ <-]. lra.
      * intros k pk Hlt Hk Hfk.
        rewrite lookup_app_l in Hk by lia.
        rewrite Forall_lookup in Hnone. specialize (Hnone _ _ Hk). congruence.
    + rewrite Hs. cbn [lt_ext].
      destruct (Qltb (score weights pl train) (score weights pi train)) eqn:Hlt.
      * apply Qltb_lt in Hlt.
        destruct Hmin as (pi' & Hpi' & _ & Hle & _).
        assert (pi' = pi) as -> by congruence.
        right. exists (length seen), pl. split; [done|].
        split; [by rewrite list_lookup_middle|]. split; [done|].
        exists pl. split; [by rewrite list_lookup_middle|]. split; [done|].
        split.
        -- intros k pk Hk Hfk.
           apply lookup_app_Some in Hk as [Hk|[_ Hk]].
           ++ specialize (Hle _ _ Hk Hfk). lra.
           ++ apply list_lookup_singleton_Some in Hk as [_ <-]. lra.
        -- intros k pk Hk' Hk Hfk.
           rewrite lookup_app_l in Hk by lia.
           specialize (Hle _ _ Hk Hfk). lra.
      * apply Qltb_ge in Hlt.
        right. exists i, pi. split; [done|].
        split; [by apply lookup_app_l_Some|]. split; [done|].
        apply first_minimum_snoc_keep; [done|].
        intros _ pi' Hpi'. congruence.
  - destruct Hb as [(Hi & Hs & Hnone)|(i & pi & Hi & Hpi & Hs & Hmin)].
    + left. split; [done|]. split; [done|].
      apply Forall_app. split; [done|]. by constructor.
    + right. exists i, pi. split; [done|].
      split; [by apply lookup_app_l_Some|]. split; [done|].
      apply first_minimum_snoc_keep; [done|]. congruence.
Qed.

Lemma scanned_scan rest seen b :
  scanned weights train seen b ->
  scanned weights train (seen ++ rest)
    (scan weights train rest (Z.of_nat (length seen)) b).
Proof.
  revert seen b. induction rest as [|pl rest IH]; intros seen b Hb.
  - by rewrite app_nil_r.
  - cbn [scan].
    replace (Z.of_nat (length seen) + 1)%Z
      with (Z.of_nat (length (seen ++ [pl])))
      by (rewrite length_app; simpl; lia).
    rewrite (cons_middle pl seen rest), app_assoc.
    apply IH. by apply scanned_step.
Qed.

(** What the whole inner loop leaves in its two variables. *)
Lemma scan_scanned platforms :
  scanned weights train platforms (scan weights train platforms 0 Best_init).
Proof. apply (scanned_scan platforms [] Best_init), scanned_init. Qed.

(** [platforms[bestIdx]] is always an element of the array. *)
Lemma scan_bestIdx_range platforms :
  (-1 <= bestIdx (scan weights train platforms 0 Best_init)
      < Z.of_nat (length platforms))%Z.
Proof.
  destruct (scan_scanned platforms) as [(-> & _)|(i & pl & -> & Hi & _)].
  - lia.
  - apply lookup_lt_Some in Hi. lia.
Qed.

(** The two branches of the loop body, by what the inner loop found. *)
Lemma place_new platforms :
  Forall (fun pl => feasible pl train = false) platforms ->
  place weights platforms train
  = platforms ++
      [Platform.mk (length platforms + 1) [train]
         (AssignedTrain.effectiveDeparture train)].
Proof.
  intros Hnone. unfold place.
  destruct (scan_scanned platforms) as [(-> & _)|(i & pl & _ & _ & _ & Hmin)].
  - reflexivity.
  - destruct Hmin as (pi & Hpi & Hf & _).
    rewrite Forall_lookup in Hnone. specialize (Hnone _ _ Hpi). congruence.
Qed.

Lemma place_cases platforms :
  (Forall (fun pl => feasible pl train = false) platforms /\
   place weights platforms train
   = platforms ++
       [Platform.mk (length platforms + 1) [train]
          (AssignedTrain.effectiveDeparture train)])
  \/
  (exists i pl,
     bestIdx (scan weights train platforms 0 Best_init) = Z.of_nat i /\
     platforms !! i = Some pl /\
     first_minimum weights train platforms i /\
     place weights platforms train = <[i := occupy train pl]> platforms).
Proof.
  unfold place.
  destruct (scan_scanned platforms) as [(-> & _ & Hn)|(i & pl & -> & Hi & _ & Hmin)].
  - left. by split.
  - right. exists i, pl. split; [done|]. split; [done|]. split; [done|].
    destruct (Z.leb_spec 0 (Z.of_nat i)); [|lia].
    rewrite Nat2Z.id.
    apply list_eq. intros j.
    rewrite list_lookup_alter, list_lookup_insert.
    apply lookup_lt_Some in Hi as Hlt.
    destruct (decide (i = j)) as [<-|Hne].
    + rewrite Hi. simpl. by rewrite decide_True by lia.
    + by rewrite decide_False by tauto.
Qed.
End Scan.

(** ** The outer loop *)

Lemma assigned_app ps qs : assigned (ps ++ qs) = assigned ps ++ assigned qs.
Proof. apply flat_map_app. Qed.

Lemma assigned_occupy platforms i pl train :
  platforms !! i = Some pl ->
  Permutation (assigned (<[i := occupy train pl]> platforms))
              (train :: assigned platforms).
Proof.
  intros Hi.
  rewrite insert_take_drop by (by eapply lookup_lt_Some).
  rewrite <- (take_drop_middle platforms i pl Hi) at 3.
  rewrite !assigned_app.
  change (assigned (occupy train pl :: drop (S i) platforms))
    with ((Platform.trains pl ++ [train]) ++ assigned (drop (S i) platforms)).
  change (assigned (pl :: drop (S i) platforms))
    with (Platform.trains pl ++ assigned (drop (S i) platforms)).
  rewrite <- !app_assoc. cbn [app].
  rewrite <- !Permutation_middle. reflexivity.
Qed.

Lemma place_assigned weights platforms train :
  Permutation (assigned (place weights platforms train))
              (train :: assigned platforms).
Proof.
  destruct (place_cases weights train platforms)
    as [(_ & ->)|(i & pl & _ & Hi & _ & ->)].
  - rewrite assigned_app. unfold assigned at 2. cbn.
    by rewrite <- Permutation_cons_append.
  - by apply assigned_occupy.
Qed.

Lemma run_assigned weights trains platforms :
  Permutation (assigned (run weights platforms trains))
              (assigned platforms ++ trains).
Proof.
  revert platforms. induction trains as [|t trains IH]; intros platforms.
  - cbn. by rewrite app_nil_r.
  - cbn [run fold_left]. fold (run weights (place weights platforms t) trains).
    rewrite IH, place_assigned. by rewrite <- Permutation_middle.
Qed.

Lemma assigned_length platforms :
  sum_list (map (fun pl => length (Platform.trains pl)) platforms)
  = length (assigned platforms).
Proof.
  induction platforms as [|pl ps IH]; [reflexivity|].
  change (assigned (pl :: ps)) with (Platform.trains pl ++ assigned ps).
  rewrite length_app, <- IH. reflexivity.
Qed.

Lemma assign_assigned trains weights :
  Permutation (assigned (assignPlatformsScoreBased trains weights))
              (map withEffective1 trains).
Proof.
  unfold assignPlatformsScoreBased.
  rewrite run_assigned. cbn. apply withEffective_perm.
Qed.

(** A property kept by the loop body holds after any number of rounds. *)
Lemma run_invariant (P : list Platform.t -> Prop) weights :
  (forall platforms train, P platforms -> P (place weights platforms train)) ->
  forall trains platforms, P platforms -> P (run weights platforms trains).
Proof.
  intros Hstep trains. induction trains as [|t trains IH]; intros ps Hps; [done|].
  cbn [run fold_left]. apply IH, Hstep, Hps.
Qed.

Lemma Sorted_snoc {A} (R : A -> A -> Prop) l x :
  Sorted R l -> (forall a, last l = Some a -> R a x) -> Sorted R (l ++ [x]).
Proof.
  induction 1 as [|a l Hl IH Ha]; intros Hlast; cbn.
  - repeat constructor.
  - constructor.
    + apply IH. intros b Hb. apply Hlast.
      destruct l; [done|]. exact Hb.
    + destruct Ha as [|b l' Hab]; cbn; constructor; [|done].
      by apply Hlast.
Qed.

Lemma feasible_le pl train :
  feasible pl train = true <->
  (Platform.nextFreeAt pl <= AssignedTrain.effectiveArrival train)%Q.
Proof. apply Qle_bool_iff. Qed.

(** The loop body keeps ids, [nextFreeAt] and the absence of overlap. *)
Lemma place_ok weights platforms train :
  platforms_ok platforms /\ Forall no_overlap platforms ->
  platforms_ok (place weights platforms train) /\
  Forall no_overlap (place weights platforms train).
Proof.
  intros [Hok Hno].
  destruct (place_cases weights train platforms)
    as [(_ & ->)|(i & pl & _ & Hi & Hmin & ->)].
  - split.
    + intros j pj Hj. apply lookup_app_Some in Hj as [Hj|[Hge Hj]]; [by apply Hok|].
      apply list_lookup_singleton_Some in Hj as [Hj <-].
      split; [cbn; lia|]. by exists train.
    + apply Forall_app. split; [done|].
      repeat constructor.
  - destruct (Hok _ _ Hi) as (Hid & a & Hlast & Hfree).
    destruct Hmin as (pl' & Hi' & Hf & _).
    assert (pl' = pl) as -> by congruence.
    apply feasible_le in Hf.
    split.
    + intros j pj Hj.
      destruct (decide (i = j)) as [<-|Hne].
      * rewrite list_lookup_insert_eq in Hj by (by eapply lookup_lt_Some).
        injection Hj as <-. split; [done|].
        exists train. cbn. by rewrite last_snoc.
      * rewrite list_lookup_insert_ne in Hj by done. by apply Hok.
    + apply Forall_insert; [done|].
      unfold no_overlap. cbn.
      apply Sorted_snoc.
      * rewrite Forall_lookup in Hno. exact (Hno _ _ Hi).
      * intros b Hb. assert (b = a) as -> by congruence.
        by rewrite <- Hfree.
Qed.

Lemma run_ok weights trains :
  platforms_ok (run weights [] trains) /\
  Forall no_overlap (run weights [] trains).
Proof.
  apply (run_invariant (fun ps => platforms_ok ps /\ Forall no_overlap ps)).
  - intros ps t. apply place_ok.
  - split; [|constructor]. intros i pl Hi. by rewrite lookup_nil in Hi.
Qed.


Lemma platforms_ok_ids platforms :
  platforms_ok platforms -> map Platform.id platforms = seq 1 (length platforms).
Proof.
  intros Hok. apply list_eq. intros i.
  rewrite list_lookup_fmap.
  destruct (platforms !! i) as [pl|] eqn:Hi; cbn.
  - destruct (Hok _ _ Hi) as [-> _].
    symmetry. apply lookup_seq. split; [lia|]. by eapply lookup_lt_Some.
  - symmetry. apply lookup_seq_ge. by apply lookup_ge_None.
Qed.

Lemma run_snoc weights platforms trains train :
  run weights platforms (trains ++ [train])
  = place weights (run weights platforms trains) train.
Proof. unfold run. by rewrite fold_left_app. Qed.

(* ------------------------------------------------------------------ *)
(** ** The assignment *)

(** C1.  The platforms returned by [assignPlatformsScoreBased] partition the
    input: the trains of all platforms, read one platform after the other
    and stripped of their effective times, are a rearrangement of the input
    list (each input train occurs on the platforms as often as in the input,
    hence once for each position); the platforms' lengths add up to the
    length of the input; no trains give no platforms. *)
Theorem assign_partition (trains : list Train.t) (weights : ScoringWeights.t) :
  Permutation
    (map AssignedTrain.train (assigned (assignPlatformsScoreBased trains weights)))
    trains /\
  sum_list (map (fun pl => length (Platform.trains pl))
              (assignPlatformsScoreBased trains weights))
  = length trains /\
  assignPlatformsScoreBased [] weights = [].
Proof.
  assert (Permutation
            (map AssignedTrain.train
               (assigned (assignPlatformsScoreBased trains weights))) trains) as HP.
  { rewrite assign_assigned, map_map. cbn. by rewrite map_id. }
  split; [exact HP|]. split; [|reflexivity].
  rewrite assigned_length, <- (length_map AssignedTrain.train).
  by apply Permutation_length.
Qed.

(** C2.  On every platform returned by [assignPlatformsScoreBased], each
    train's effective arrival is at or after the effective departure of the
    train placed on that platform just before it.  And in any round of the
    loop, from any platform list: when the inner loop picks platform [i], that
    platform's [nextFreeAt] is at most the train's effective arrival, and the
    train goes to that platform. *)
Theorem assign_no_overlap (trains : list Train.t) (weights : ScoringWeights.t) :
  Forall no_overlap (assignPlatformsScoreBased trains weights) /\
  (forall platforms train i,
     bestIdx (scan weights train platforms 0 Best_init) = Z.of_nat i ->
     exists pl,
       platforms !! i = Some pl /\
       (Platform.nextFreeAt pl <= AssignedTrain.effectiveArrival train)%Q /\
       place weights platforms train = <[i := occupy train pl]> platforms).
Proof.
  split; [apply run_ok|].
  intros platforms train i Hi.
  destruct (place_cases weights train platforms)
    as [(Hn & _)|(i' & pl & Hi' & Hpl & Hmin & Hplace)].
  - destruct (scan_scanned weights train platforms)
      as [(Hm & _)|(k & pk & _ & _ & _ & (q & Hq & Hfq & _))]; [lia|].
    rewrite Forall_lookup in Hn. specialize (Hn _ _ Hq). congruence.
  - assert (i' = i) as -> by lia.
    exists pl. split; [done|]. split; [|done].
    destruct Hmin as (pl' & Hpl' & Hf & _).
    assert (pl' = pl) as -> by congruence.
    by apply feasible_le.
Qed.

Lemma assign_no_overlap_witness :
  exists pl,
    exTie !! 0%nat = Some pl /\
    (Platform.nextFreeAt pl <= AssignedTrain.effectiveArrival (withEffective1 exC))%Q /\
    place DEFAULT_WEIGHTS exTie (withEffective1 exC)
    = <[0%nat := occupy (withEffective1 exC) pl]> exTie.
Proof.
  apply (proj2 (assign_no_overlap [] DEFAULT_WEIGHTS) exTie (withEffective1 exC) 0%nat).
  vm_compute. reflexivity.
Defined.

(** C4.  The worked example: A (0 to 20), B (10 to 30) and C (25 to 40), on
    time and without delay, under the default weights, give two platforms:
    platform 1 with A then C, free from 40, and platform 2 with B, free from
    30. *)
Theorem assign_example :
  assignPlatformsScoreBased [exA; exB; exC] DEFAULT_WEIGHTS
  = [ Platform.mk 1 [AssignedTrain.mk exA 0 20; AssignedTrain.mk exC 25 40] 40;
      Platform.mk 2 [AssignedTrain.mk exB 10 30] 30 ].
Proof. vm_compute. reflexivity. Qed.



(** C9.  After each round of the loop (the state after the first [k] trains
    of the processing order, for every [k]) and so in the list returned,
    the platform at position [i], counted from 0, has id [i + 1], and its
    [nextFreeAt] is the effective departure of the last train of its
    sequence. *)
Theorem platforms_ok_throughout (trains : list Train.t) (weights : ScoringWeights.t) :
  (forall k, platforms_ok (run weights [] (take k (withEffective trains)))) /\
  (forall k train,
     withEffective trains !! k = Some train ->
     run weights [] (take (S k) (withEffective trains))
     = place weights (run weights [] (take k (withEffective trains))) train) /\
  platforms_ok (assignPlatformsScoreBased trains weights) /\
  map Platform.id (assignPlatformsScoreBased trains weights)
  = seq 1 (length (assignPlatformsScoreBased trains weights)).
Proof.
  split; [intros k; apply run_ok|].
  split; [intros k train Hk; by rewrite (take_S_r _ _ _ Hk), run_snoc|].
  split; [apply run_ok|].
  apply platforms_ok_ids, run_ok.
Qed.

Lemma platforms_ok_throughout_witness :
  run DEFAULT_WEIGHTS [] (take 2 (withEffective [exA; exB; exC]))
  = place DEFAULT_WEIGHTS
      (run DEFAULT_WEIGHTS [] (take 1 (withEffective [exA; exB; exC])))
      (withEffective1 exB).
Proof.
  apply (proj1 (proj2 (platforms_ok_throughout [exA; exB; exC] DEFAULT_WEIGHTS))
           1%nat (withEffective1 exB)).
  reflexivity.
Defined.

(* ------------------------------------------------------------------ *)
(** ** The metrics *)

Lemma platformMetrics_other (platforms : list Platform.t)
    (m : gmap nat PlatformMetric.t) (k : nat) :
  k ∉ map Platform.id platforms ->
  fold_left (fun map pl => <[Platform.id pl := metricsOf pl]> map) platforms m !! k
  = m !! k.
Proof.
  revert m. induction platforms as [|pl ps IH]; intros m Hk; [done|].
  cbn [fold_left]. cbn in Hk. apply not_elem_of_cons in Hk as [Hne Hk].
  rewrite IH by done. by rewrite lookup_insert_ne.
Qed.

Lemma platformMetrics_lookup (platforms : list Platform.t) (pl : Platform.t) :
  NoDup (map Platform.id platforms) ->
  pl ∈ platforms ->
  platformMetrics platforms !! Platform.id pl = Some (metricsOf pl).
Proof.
  unfold platformMetrics. generalize (∅ : gmap nat PlatformMetric.t).
  induction platforms as [|p ps IH]; intros m Hnd Hin.
  - by apply elem_of_nil in Hin.
  - cbn in Hnd. apply NoDup_cons in Hnd as [Hp Hnd].
    cbn [fold_left]. apply elem_of_cons in Hin as [->|Hin].
    + rewrite platformMetrics_other by done. by rewrite lookup_insert_eq.
    + by apply IH.
Qed.

Lemma endMetricOf_assign trains weights :
  Forall
    (fun pl =>
       platformMetrics (assignPlatformsScoreBased trains weights) !! Platform.id pl
       = Some (metricsOf pl))
    (assignPlatformsScoreBased trains weights).
Proof.
  apply Forall_forall. intros pl Hpl.
  apply platformMetrics_lookup; [|done].
  rewrite platforms_ok_ids by apply run_ok. apply NoDup_seq.
Qed.

Lemma fold_left_Qsum {A} (f : A -> Q) (l : list A) (a : Q) :
  (fold_left (fun sum t => sum + f t) l a == a + Qsum (map f l))%Q.
Proof.
  revert a. induction l as [|x l IH]; intros a; cbn.
  - ring.
  - rewrite IH. unfold Qsum. ring.
Qed.

Lemma filter_count_status ts :
  length (List.filter (fun t => Status_eqb (AssignedTrain.status t) Delayed) ts)
  = count_status Delayed ts.
Proof.
  induction ts as [|t ts IH]; [reflexivity|].
  cbn. destruct (Status_eqb (AssignedTrain.status t) Delayed); cbn; by rewrite IH.
Qed.

Lemma trains_nonempty trains weights :
  Forall (fun pl => (0 < length (Platform.trains pl))%nat)
    (assignPlatformsScoreBased trains weights).
Proof.
  apply Forall_lookup. intros i pl Hi.
  destruct (run_ok weights (withEffective trains)) as [Hok _].
  destruct (Hok _ _ Hi) as (_ & t & Hlast & _).
  destruct (Platform.trains pl); [done|cbn; lia].
Qed.

Lemma metricsOf_endMetric pl :
  PlatformMetric.endMetric (metricsOf pl)
  = if (0 <? PlatformMetric.totalTrains (metricsOf pl))%nat
    then ((PlatformMetric.totalDelay (metricsOf pl)
           + num (PlatformMetric.delayedCount (metricsOf pl)))
          / num (PlatformMetric.totalTrains (metricsOf pl)))%Q
    else 0%Q.
Proof. reflexivity. Qed.

Lemma metricsOf_totalTrains pl :
  PlatformMetric.totalTrains (metricsOf pl) = length (Platform.trains pl).
Proof. reflexivity. Qed.

Lemma metricsOf_totalDelay pl :
  (PlatformMetric.totalDelay (metricsOf pl)
   == Qsum (map AssignedTrain.delay (Platform.trains pl)))%Q.
Proof.
  unfold metricsOf. cbn [PlatformMetric.totalDelay].
  rewrite fold_left_Qsum. ring.
Qed.

Lemma metricsOf_delayedCount pl :
  PlatformMetric.delayedCount (metricsOf pl)
  = count_status Delayed (Platform.trains pl).
Proof. apply filter_count_status. Qed.

(** C7.  For each platform [pl] returned by [assignPlatformsScoreBased], the
    metrics map has at [pl.id] the figures of [pl]: [totalTrains] is the
    number of its trains (never 0), [totalDelay] the sum of their delays,
    [delayedCount] the number of them that are delayed, and [endMetric]
    is [(totalDelay + delayedCount) / totalTrains].  For any platform the
    figure is this quotient when it has a train and 0 when it has none.  With
    a total delay of 10, one delayed train and two trains it is 5.5. *)
Theorem endMetric_formula (trains : list Train.t) (weights : ScoringWeights.t) :
  let platforms := assignPlatformsScoreBased trains weights in
  Forall
    (fun pl =>
       exists m,
         platformMetrics platforms !! Platform.id pl = Some m /\
         PlatformMetric.totalTrains m = length (Platform.trains pl) /\
         (0 < PlatformMetric.totalTrains m)%nat /\
         (PlatformMetric.totalDelay m
          == Qsum (map AssignedTrain.delay (Platform.trains pl)))%Q /\
         PlatformMetric.delayedCount m = count_status Delayed (Platform.trains pl) /\
         (PlatformMetric.endMetric m
          == (PlatformMetric.totalDelay m + num (PlatformMetric.delayedCount m))
             / num (PlatformMetric.totalTrains m))%Q)
    platforms /\
  (forall pl : Platform.t,
     let totalTrains := length (Platform.trains pl) in
     let totalDelayMinutes := Qsum (map AssignedTrain.delay (Platform.trains pl)) in
     let delayedCount := count_status Delayed (Platform.trains pl) in
     (PlatformMetric.endMetric (metricsOf pl)
      == if (0 <? totalTrains)%nat
         then (totalDelayMinutes + num delayedCount) / num totalTrains
         else 0)%Q) /\
  (forall pl : Platform.t,
     (PlatformMetric.totalDelay (metricsOf pl) == 10)%Q ->
     PlatformMetric.delayedCount (metricsOf pl) = 1%nat ->
     PlatformMetric.totalTrains (metricsOf pl) = 2%nat ->
     (PlatformMetric.endMetric (metricsOf pl) == 5.5)%Q).
Proof.
  intros platforms. split; [|split].
  - pose proof (endMetricOf_assign trains weights) as Hm.
    pose proof (trains_nonempty trains weights) as Hne.
    fold platforms in Hm, Hne.
    rewrite Forall_forall in Hm, Hne. apply Forall_forall. intros pl Hpl.
    exists (metricsOf pl). split; [by apply Hm|].
    specialize (Hne _ Hpl).
    split; [apply metricsOf_totalTrains|].
    split; [by rewrite metricsOf_totalTrains|].
    split; [apply metricsOf_totalDelay|].
    split; [apply metricsOf_delayedCount|].
    rewrite metricsOf_endMetric, metricsOf_totalTrains.
    apply Nat.ltb_lt in Hne. rewrite Hne. reflexivity.
  - intros pl totalTrains totalDelayMinutes delayedCount.
    rewrite metricsOf_endMetric, metricsOf_totalTrains.
    fold totalTrains. destruct (0 <? totalTrains)%nat; [|reflexivity].
    rewrite metricsOf_delayedCount, metricsOf_totalDelay. reflexivity.
  - intros pl Hd Hc Hn.
    rewrite metricsOf_endMetric, Hn, Hc.
    change ((PlatformMetric.totalDelay (metricsOf pl) + num 1) / num 2 == 5.5)%Q.
    rewrite Hd. reflexivity.
Qed.

Lemma endMetric_formula_witness :
  (PlatformMetric.endMetric (metricsOf exP) == 5.5)%Q.
Proof.
  apply (proj2 (proj2 (endMetric_formula [] DEFAULT_WEIGHTS)) exP).
  - vm_compute. reflexivity.
  - reflexivity.
  - reflexivity.
Defined.

(** ** Rounding to two decimals *)

Lemma Qfloor_half (n : Z) : Qfloor (inject_Z n + (1 # 2)) = n.
Proof.
  pose proof (Qfloor_le (inject_Z n + (1 # 2))) as Hlo.
  pose proof (Qlt_floor (inject_Z n + (1 # 2))) as Hhi.
  set (f := Qfloor (inject_Z n + (1 # 2))) in *.
  assert (inject_Z f < inject_Z (n + 1))%Q as H1
    by (rewrite inject_Z_plus; change (inject_Z 1) with 1%Q; lra).
  assert (inject_Z n < inject_Z (f + 1))%Q as H2 by lra.
  rewrite <- Zlt_Qlt in H1, H2. lia.
Qed.

(** C8, as stated, fails: with one train delayed by 10 minutes and two on
    time sharing a platform, [endMetric] is 11/3; for the delayed train the
    absolute difference is 19/3 and the chart's [newDelay] is 6.33. *)
Lemma newDelay_is_rounded :
  let platforms := assignPlatformsScoreBased [exD1; exD2; exD3] DEFAULT_WEIGHTS in
  let metrics := platformMetrics platforms in
  exists pl t e,
    platforms = [pl] /\
    Platform.trains pl !! 0%nat = Some t /\
    delayComparisonData platforms metrics !! 0%nat = Some e /\
    e = delayComparisonEntry (endMetricOf metrics pl) t /\
    (endMetricOf metrics pl == 11 # 3)%Q /\
    (AssignedTrain.delay t == 10)%Q /\
    (DelayComparison.newDelay e == 6.33)%Q /\
    ~ (DelayComparison.newDelay e
       == Math_abs (endMetricOf metrics pl - AssignedTrain.delay t))%Q.
Proof.
  eexists _, _, _.
  split; [vm_compute; reflexivity|].
  split; [reflexivity|].
  split; [reflexivity|].
  split; [reflexivity|].
  split; [vm_compute; reflexivity|].
  split; [reflexivity|].
  split; [vm_compute; reflexivity|].
  vm_compute. discriminate.
Qed.

(* ------------------------------------------------------------------ *)
(** ** The function on the store *)

Section HeapSteps.
Import Heap.

Lemma bind_Some {A B} (m : M A) (k : A -> M B) h a h' :
  m h = Some (a, h') -> bind m k h = k a h'.
Proof. unfold bind. by intros ->. Qed.

Lemma get_Some h r o : h !! r = Some o -> get r h = Some (o, h).
Proof. unfold get. by intros ->. Qed.

Lemma put_Some h r o o' :
  h !! r = Some o -> put r o' h = Some (tt, <[r := o']> h).
Proof. unfold put. by intros ->. Qed.

Lemma getTrain_Some h r t :
  h !! r = Some (TrainObj t) -> getTrain r h = Some (t, h).
Proof. intros H. unfold getTrain. by rewrite (bind_Some _ _ _ _ _ (get_Some _ _ _ H)). Qed.

Lemma getAssigned_Some h r t :
  h !! r = Some (AssignedObj t) -> getAssigned r h = Some (t, h).
Proof. intros H. unfold getAssigned. by rewrite (bind_Some _ _ _ _ _ (get_Some _ _ _ H)). Qed.

Lemma getArray_Some h r l :
  h !! r = Some (ArrayObj l) -> getArray r h = Some (l, h).
Proof. intros H. unfold getArray. by rewrite (bind_Some _ _ _ _ _ (get_Some _ _ _ H)). Qed.

Lemma getPlatform_Some h r id tr nf :
  h !! r = Some (PlatformObj id tr nf) -> getPlatform r h = Some ((id, tr, nf), h).
Proof. intros H. unfold getPlatform. by rewrite (bind_Some _ _ _ _ _ (get_Some _ _ _ H)). Qed.

Lemma mapM_getAssigned h refs objs :
  Forall2 (fun r t => h !! r = Some (AssignedObj t)) refs objs ->
  mapM getAssigned refs h = Some (objs, h).
Proof.
  induction 1 as [|r t refs objs Hr _ IH]; [reflexivity|].
  cbn [mapM].
  rewrite (bind_Some _ _ _ _ _ (getAssigned_Some _ _ _ Hr)).
  by rewrite (bind_Some _ _ _ _ _ IH).
Qed.

(** The copies made by [trains.map]. *)
Lemma mapM_copy elems ts h :
  Forall2 (fun r t => h !! r = Some (TrainObj t)) elems ts ->
  mapM (fun r => bind (getTrain r) (fun t => new (AssignedObj (withEffective1 t))))
    elems h
  = Some (seq (length h) (length ts),
          h ++ map (fun t => AssignedObj (withEffective1 t)) ts).
Proof.
  revert ts h. induction elems as [|r elems IH]; intros ts h Hf.
  - apply Forall2_nil_inv_l in Hf as ->. cbn. by rewrite app_nil_r.
  - apply Forall2_cons_inv_l in Hf as (t & ts' & Hr & Hf & ->).
    cbn [mapM].
    rewrite (bind_Some _ _ (h) (length h) (h ++ [AssignedObj (withEffective1 t)])).
    2: { by rewrite (bind_Some _ _ _ _ _ (getTrain_Some _ _ _ Hr)). }
    assert (Forall2 (fun r t0 => (h ++ [AssignedObj (withEffective1 t)]) !! r
                                 = Some (TrainObj t0)) elems ts') as Hf'.
    { eapply Forall2_impl; [exact Hf|]. intros r' t' H'. by apply lookup_app_l_Some. }
    rewrite (bind_Some _ _ _ _ _ (IH ts' _ Hf')).
    cbn. rewrite length_app. cbn.
    replace (length h + 1)%nat with (S (length h)) by lia.
    by rewrite <- app_assoc.
Qed.

Lemma map_withEffective_Some h trains ts :
  holds_trains h trains ts ->
  map_withEffective trains h
  = Some (length h + length ts,
          h ++ map (fun t => AssignedObj (withEffective1 t)) ts
            ++ [ArrayObj (seq (length h) (length ts))])%nat.
Proof.
  intros (elems & Harr & Hel). unfold map_withEffective.
  rewrite (bind_Some _ _ _ _ _ (getArray_Some _ _ _ Harr)).
  rewrite (bind_Some _ _ _ _ _ (mapM_copy _ _ _ Hel)).
  unfold new. rewrite length_app, length_map. by rewrite <- app_assoc.
Qed.

Lemma Array_sort_map {A B} (g : A -> B) (cmp : B -> B -> Q) (l : list A) :
  map g (Array_sort (fun x y => cmp (g x) (g y)) l) = Array_sort cmp (map g l).
Proof.
  induction l as [|x l IH]; [reflexivity|].
  cbn [Array_sort foldr map].
  fold (Array_sort (fun x y => cmp (g x) (g y)) l).
  fold (Array_sort cmp (map g l)). rewrite <- IH.
  generalize (Array_sort (fun x y => cmp (g x) (g y)) l) as s.
  induction s as [|y s IHs]; [reflexivity|].
  cbn. destruct (Qle_bool (cmp (g x) (g y)) 0); [reflexivity|].
  cbn. by rewrite IHs.
Qed.
End HeapSteps.

Section HeapInvariant.
Import Heap.

Lemma viewPlatform_Some h s pl :
  platform_at h s pl -> viewPlatform (fst s) h = Some (pl, h).
Proof.
  intros (Hp & trefs & Htr & Hts). unfold viewPlatform.
  rewrite (bind_Some _ _ _ _ _ (getPlatform_Some _ _ _ _ _ Hp)).
  rewrite (bind_Some _ _ _ _ _ (getArray_Some _ _ _ Htr)).
  rewrite (bind_Some _ _ _ _ _ (mapM_getAssigned _ _ _ Hts)).
  by destruct pl.
Qed.

Lemma mapM_viewPlatform h shape ps :
  Forall2 (platform_at h) shape ps ->
  mapM viewPlatform (map fst shape) h = Some (ps, h).
Proof.
  induction 1 as [|s pl shape ps Hs _ IH]; [reflexivity|].
  cbn [map mapM].
  rewrite (bind_Some _ _ _ _ _ (viewPlatform_Some _ _ _ Hs)).
  by rewrite (bind_Some _ _ _ _ _ IH).
Qed.

(** Reading the platforms back from the store gives the list. *)
Lemma viewPlatforms_Some n0 h platforms ps :
  platforms_at n0 h platforms ps -> viewPlatforms platforms h = Some (ps, h).
Proof.
  intros (shape & Harr & Hps & _). unfold viewPlatforms.
  rewrite (bind_Some _ _ _ _ _ (getArray_Some _ _ _ Harr)).
  by apply mapM_viewPlatform.
Qed.

Lemma stable_refl n0 h : stable n0 h h.
Proof. by split. Qed.

Lemma stable_trans n0 h1 h2 h3 :
  stable n0 h1 h2 -> stable n0 h2 h3 -> stable n0 h1 h3.
Proof.
  intros [Ha Hb] [Hc Hd]. split.
  - intros r Hr. by rewrite Hc, Ha.
  - intros r t Hr. by apply Hd, Hb.
Qed.

(** A platform stands in a later store as in an earlier one when its
    object, its array and the trains are as they were. *)
Lemma platform_at_transport h h' s pl :
  platform_at h s pl ->
  h' !! fst s = h !! fst s ->
  h' !! snd s = h !! snd s ->
  (forall r t, h !! r = Some (AssignedObj t) -> h' !! r = Some (AssignedObj t)) ->
  platform_at h' s pl.
Proof.
  intros (Hp & trefs & Htr & Hts) H1 H2 H3. split; [by rewrite H1|].
  exists trefs. split; [by rewrite H2|].
  eapply Forall2_impl; [exact Hts|]. intros r t. apply H3.
Qed.

(** Writing to an array or to a platform object leaves the trains alone. *)
Lemma insert_keeps_assigned (h : store) r o o' :
  h !! r = Some o' ->
  (forall t, o' <> AssignedObj t) ->
  forall r' t, h !! r' = Some (AssignedObj t) ->
               <[r := o]> h !! r' = Some (AssignedObj t).
Proof.
  intros Hr Ho r' t Hr'.
  rewrite list_lookup_insert_ne; [done|].
  intros ->. rewrite Hr in Hr'. injection Hr' as ->. by eapply Ho.
Qed.

Lemma platform_at_lt h s pl :
  platform_at h s pl -> fst s < length h /\ snd s < length h.
Proof.
  intros (Hp & trefs & Htr & _). split; by eapply lookup_lt_Some.
Qed.
End HeapInvariant.

Section HeapShape.
Import Heap.

(** Where the objects and arrays of the platforms are in the store. *)
Lemma shape_facts n0 h platforms ps shape s :
  h !! platforms = Some (ArrayObj (map fst shape)) ->
  Forall2 (platform_at h) shape ps ->
  NoDup (platforms :: map snd shape) ->
  Forall (fun r => n0 <= r) (platforms :: map fst shape ++ map snd shape) ->
  s ∈ shape ->
  fst s < length h /\ snd s < length h /\
  fst s <> platforms /\ snd s <> platforms /\
  n0 <= fst s /\ n0 <= snd s.
Proof.
  intros Harr Hps Hnd Hge Hs.
  apply list_elem_of_lookup in Hs as [i Hi].
  destruct (Forall2_lookup_l _ _ _ _ _ Hps Hi) as (pl & _ & Hat).
  destruct (platform_at_lt _ _ _ Hat) as [H1 H2].
  apply list_elem_of_lookup_2 in Hi.
  apply Forall_cons in Hge as [_ Hge]. apply Forall_app in Hge as [Hg1 Hg2].
  rewrite Forall_forall in Hg1, Hg2.
  repeat split; try done.
  - intros E. destruct Hat as [Hp _]. rewrite E in Hp. congruence.
  - intros E. apply NoDup_cons_1_1 in Hnd. apply Hnd. rewrite <- E.
    by apply list_elem_of_fmap_2.
  - by apply Hg1, list_elem_of_fmap_2.
  - by apply Hg2, list_elem_of_fmap_2.
Qed.
End HeapShape.

Section HeapPlace.
Import Heap.
Context (n0 : nat) (weights : ScoringWeights.t) (platforms : ref).

Lemma heap_place_new h ps train t :
  platforms_at n0 h platforms ps ->
  h !! train = Some (AssignedObj t) ->
  bestIdx (scan weights t ps 0 Best_init) = (-1)%Z ->
  exists h',
    Heap.place weights platforms train h = Some (tt, h') /\
    platforms_at n0 h' platforms
      (ps ++ [Platform.mk (length ps + 1) [t] (AssignedTrain.effectiveDeparture t)]) /\
    stable n0 h h'.
Proof.
  intros Hat Ht Hb.
  pose proof (viewPlatforms_Some _ _ _ _ Hat) as Hview.
  destruct Hat as (shape & Harr & Hps & Hnd1 & Hnd2 & Hge).
  pose proof (fun s => shape_facts _ _ _ _ _ s Harr Hps Hnd2 Hge) as Hshape.
  pose proof (lookup_lt_Some _ _ _ Harr) as HP.
  pose proof (lookup_lt_Some _ _ _ Ht) as Htrain.
  assert (n0 <= platforms) as HnP by (by apply Forall_cons in Hge as [? _]).
  assert (length (map fst shape) = length ps) as Hlen
    by (rewrite length_map; by eapply Forall2_length).
  set (h1 := h ++ [ArrayObj [train]]).
  set (h2 := h1 ++ [PlatformObj (length ps + 1) (length h)
                      (AssignedTrain.effectiveDeparture t)]).
  assert (h2 !! platforms = Some (ArrayObj (map fst shape))) as Harr2
    by (by do 2 apply lookup_app_l_Some).
  assert (length h1 = S (length h)) as Hl1
    by (unfold h1; rewrite length_app; cbn; lia).
  assert (length h2 = S (S (length h))) as Hl2
    by (unfold h2; rewrite length_app, Hl1; cbn; lia).
  set (h' := <[platforms := ArrayObj (map fst shape ++ [length h1])]> h2).
  assert (forall r, r < length h -> r <> platforms -> h' !! r = h !! r) as Hframe.
  { intros r Hr Hne. unfold h', h2, h1.
    rewrite list_lookup_insert_ne by done.
    rewrite lookup_app_l by (rewrite length_app; cbn; lia).
    by rewrite lookup_app_l. }
  assert (forall r a, h !! r = Some (AssignedObj a) -> h' !! r = Some (AssignedObj a))
    as Hkeep.
  { intros r a Hr. rewrite Hframe; [done|by eapply lookup_lt_Some|].
    intros ->. congruence. }
  exists h'.
  split; [|split].
  - unfold Heap.place.
    rewrite (bind_Some _ _ _ _ _ (getAssigned_Some _ _ _ Ht)).
    rewrite (bind_Some _ _ _ _ _ Hview).
    rewrite Hb.
    rewrite (bind_Some _ _ _ _ _ (getArray_Some _ _ _ Harr)).
    change (0 <=? -1)%Z with false. cbv iota.
    unfold new at 1. unfold bind at 1.
    unfold new at 1. unfold bind at 1.
    rewrite Hlen. fold h1. fold h2.
    by apply put_Some with (o := ArrayObj (map fst shape)).
  - exists (shape ++ [(length h1, length h)]).
    rewrite !map_app. cbn [map fst snd].
    split; [|split; [|split; [|split]]].
    + apply list_lookup_insert_eq. lia.
    + apply Forall2_app.
      * apply Forall2_same_length_lookup_2; [by eapply Forall2_length|].
        intros i s pl Hs Hpl.
        pose proof (Forall2_lookup_lr _ _ _ _ _ _ Hps Hs Hpl) as Hat.
        apply list_elem_of_lookup_2 in Hs.
        destruct (Hshape _ Hs) as (? & ? & ? & ? & _).
        apply (platform_at_transport h); [done| | |done]; by apply Hframe.
      * constructor; [|constructor].
        split; cbn [fst snd Platform.id Platform.nextFreeAt Platform.trains].
        -- unfold h'. rewrite list_lookup_insert_ne by lia.
           unfold h2. by rewrite list_lookup_middle.
        -- exists [train]. split.
           ++ unfold h'. rewrite list_lookup_insert_ne by lia.
              unfold h2. rewrite lookup_app_l by lia.
              unfold h1. by rewrite list_lookup_middle.
           ++ constructor; [|constructor]. by apply Hkeep.
    + apply NoDup_app. split; [done|]. split; [|apply NoDup_singleton].
      intros x Hx Hx'. apply list_elem_of_singleton in Hx'.
      apply list_elem_of_fmap in Hx as (s & -> & Hs).
      destruct (Hshape _ Hs) as (? & _). lia.
    + rewrite app_comm_cons. apply NoDup_app. split; [done|].
      split; [|apply NoDup_singleton].
      intros x Hx Hx'. apply list_elem_of_singleton in Hx'.
      apply elem_of_cons in Hx as [->|Hx]; [lia|].
      apply list_elem_of_fmap in Hx as (s & -> & Hs).
      destruct (Hshape _ Hs) as (_ & ? & _). lia.
    + apply Forall_cons in Hge as [_ Hge]. apply Forall_app in Hge as [Hg1 Hg2].
      apply Forall_cons. split; [done|].
      repeat (apply Forall_app; split); try done.
      * constructor; [lia|constructor].
      * constructor; [lia|constructor].
  - split; [|exact Hkeep].
    intros r Hr. apply Hframe; lia.
Qed.

Lemma heap_place_existing h ps train t i pl :
  platforms_at n0 h platforms ps ->
  h !! train = Some (AssignedObj t) ->
  bestIdx (scan weights t ps 0 Best_init) = Z.of_nat i ->
  ps !! i = Some pl ->
  exists h',
    Heap.place weights platforms train h = Some (tt, h') /\
    platforms_at n0 h' platforms (<[i := occupy t pl]> ps) /\
    stable n0 h h'.
Proof.
  intros Hat Ht Hb Hpl.
  pose proof (viewPlatforms_Some _ _ _ _ Hat) as Hview.
  destruct Hat as (shape & Harr & Hps & Hnd1 & Hnd2 & Hge).
  pose proof (fun s => shape_facts _ _ _ _ _ s Harr Hps Hnd2 Hge) as Hshape.
  destruct (Forall2_lookup_r _ _ _ _ _ Hps Hpl) as (s & Hs & Hp & trefs & Htr & Hts).
  destruct (Hshape s (list_elem_of_lookup_2 _ _ _ Hs)) as (Hs1 & Hs2 & Hs3 & Hs4 & Hs5 & Hs6).
  assert (fst s <> snd s) as Hs7 by (intros E; rewrite E in Hp; congruence).
  set (h1 := <[snd s := ArrayObj (trefs ++ [train])]> h).
  set (h' := <[fst s := PlatformObj (Platform.id pl) (snd s)
                         (AssignedTrain.effectiveDeparture t)]> h1).
  assert (forall r, r <> fst s -> r <> snd s -> h' !! r = h !! r) as Hframe.
  { intros r H1 H2. unfold h', h1. by rewrite !list_lookup_insert_ne. }
  assert (forall r a, h !! r = Some (AssignedObj a) -> h' !! r = Some (AssignedObj a))
    as Hkeep.
  { intros r a Hr. rewrite Hframe; [done| |]; intros ->; congruence. }
  exists h'. split; [|split].
  - unfold Heap.place.
    rewrite (bind_Some _ _ _ _ _ (getAssigned_Some _ _ _ Ht)).
    rewrite (bind_Some _ _ _ _ _ Hview).
    rewrite Hb.
    rewrite (bind_Some _ _ _ _ _ (getArray_Some _ _ _ Harr)).
    destruct (Z.leb_spec 0 (Z.of_nat i)); [|lia].
    rewrite Nat2Z.id, list_lookup_fmap, Hs. cbn [fmap option_fmap option_map].
    rewrite (bind_Some _ _ _ _ _ (getPlatform_Some _ _ _ _ _ Hp)).
    rewrite (bind_Some _ _ _ _ _ (getArray_Some _ _ _ Htr)).
    rewrite (bind_Some _ _ _ _ _ (put_Some _ _ _ _ Htr)).
    fold h1. eapply put_Some.
    unfold h1. rewrite list_lookup_insert_ne by done. exact Hp.
  - exists shape.
    split; [|split; [|split; [|split]]]; try done.
    + by rewrite Hframe.
    + apply Forall2_same_length_lookup_2.
      { rewrite length_insert. by eapply Forall2_length. }
      intros j s' pl' Hs' Hpl'.
      destruct (decide (i = j)) as [<-|Hne].
      * rewrite list_lookup_insert_eq in Hpl' by (by eapply lookup_lt_Some).
        injection Hpl' as <-. assert (s' = s) as -> by congruence.
        split; cbn [occupy Platform.id Platform.nextFreeAt Platform.trains].
        -- unfold h'. apply list_lookup_insert_eq.
           unfold h1. by rewrite length_insert.
        -- exists (trefs ++ [train]). split.
           ++ unfold h'. rewrite list_lookup_insert_ne by done.
              unfold h1. by apply list_lookup_insert_eq.
           ++ apply Forall2_app.
              ** eapply Forall2_impl; [exact Hts|]. intros r a. apply Hkeep.
              ** constructor; [|constructor]. by apply Hkeep.
      * rewrite list_lookup_insert_ne in Hpl' by done.
        pose proof (Forall2_lookup_lr _ _ _ _ _ _ Hps Hs' Hpl') as Hat'.
        destruct Hat' as (Hp' & trefs' & Htr' & Hts').
        apply (platform_at_transport h); [by split; eauto| | |done].
        -- apply Hframe; [|intros E; rewrite E in Hp'; congruence].
           intros E. apply Hne.
           apply (NoDup_lookup (map fst shape) i j (fst s)); [done| |].
           ++ by rewrite list_lookup_fmap, Hs.
           ++ rewrite list_lookup_fmap, Hs'. cbn. by rewrite E.
        -- apply Hframe; [intros E; rewrite E in Htr'; congruence|].
           intros E. apply Hne.
           apply (NoDup_lookup (map snd shape) i j (snd s));
             [by eapply NoDup_cons_1_2| |].
           ++ by rewrite list_lookup_fmap, Hs.
           ++ rewrite list_lookup_fmap, Hs'. cbn. by rewrite E.
  - split; [|exact Hkeep].
    intros r Hr. apply Hframe; lia.
Qed.

End HeapPlace.

Section HeapLoop.
Context (n0 : nat) (weights : ScoringWeights.t) (platforms : nat).

(** The loop body on the store does what [place] does on the list, writes
    to nothing older than the platforms, and leaves the trains alone. *)
Lemma heap_place h ps train t :
  Heap.platforms_at n0 h platforms ps ->
  (h : list Heap.obj) !! train = Some (Heap.AssignedObj t) ->
  exists h',
    Heap.place weights platforms train h = Some (tt, h') /\
    Heap.platforms_at n0 h' platforms (place weights ps t) /\
    Heap.stable n0 h h'.
Proof.
  intros Hat Ht.
  destruct (scan_scanned weights t ps) as [(Hb & _ & Hn)|(i & pl & Hb & Hi & _)].
  - rewrite (place_new _ _ _ Hn). by apply heap_place_new.
  - destruct (place_cases weights t ps) as [(Hn & _)|(i' & pl' & Hb' & Hi' & _ & ->)].
    + rewrite Forall_lookup in Hn.
      destruct (scan_scanned weights t ps)
        as [(Hm & _)|(k & pk & _ & _ & _ & (q & Hq & Hfq & _))]; [lia|].
      specialize (Hn _ _ Hq). congruence.
    + by apply heap_place_existing.
Qed.

(** The outer loop. *)
Lemma heap_forEach refs objs h ps :
  Heap.platforms_at n0 h platforms ps ->
  Forall2 (fun r t => (h : list Heap.obj) !! r = Some (Heap.AssignedObj t)) refs objs ->
  exists h',
    Heap.forEach (Heap.place weights platforms) refs h = Some (tt, h') /\
    Heap.platforms_at n0 h' platforms (run weights ps objs) /\
    Heap.stable n0 h h'.
Proof.
  revert objs h ps. induction refs as [|r refs IH]; intros objs h ps Hat Hf.
  - apply Forall2_nil_inv_l in Hf as ->. exists h. split; [done|].
    split; [done|apply stable_refl].
  - apply Forall2_cons_inv_l in Hf as (t & objs' & Hr & Hf & ->).
    destruct (heap_place _ _ _ _ Hat Hr) as (h1 & Hrun & Hat1 & Hst1).
    assert (Forall2 (fun r t => (h1 : list Heap.obj) !! r = Some (Heap.AssignedObj t)) refs objs') as Hf1.
    { eapply Forall2_impl; [exact Hf|]. intros r' t'. apply Hst1. }
    destruct (IH _ _ _ Hat1 Hf1) as (h2 & Hrun2 & Hat2 & Hst2).
    exists h2. split; [|split].
    + cbn [Heap.forEach]. by rewrite (bind_Some _ _ _ _ _ Hrun).
    + exact Hat2.
    + by eapply stable_trans.
Qed.
End HeapLoop.

Lemma Forall2_zip {A B} (P : A -> B -> Prop) l k :
  Forall2 P l k -> Forall (fun p => P (fst p) (snd p)) (zip l k).
Proof. induction 1; cbn; by constructor. Qed.

Lemma Forall_fst_snd {A B} (P : A -> B -> Prop) (l : list (A * B)) :
  Forall (fun p => P (fst p) (snd p)) l -> Forall2 P (map fst l) (map snd l).
Proof. induction 1; cbn; by constructor. Qed.

(** The sort on the store: the array then holds the references in the
    processing order of the pure model. *)
Lemma sort_byEffectiveArrival_Some (h : list Heap.obj) arr refs objs :
  h !! arr = Some (Heap.ArrayObj refs) ->
  Forall2 (fun r t => h !! r = Some (Heap.AssignedObj t)) refs objs ->
  exists srefs,
    Heap.sort_byEffectiveArrival arr h
    = Some (tt, <[arr := Heap.ArrayObj srefs]> h) /\
    Forall2 (fun r t => h !! r = Some (Heap.AssignedObj t)) srefs
      (Array_sort byEffectiveArrival objs).
Proof.
  intros Harr Hf.
  set (S := Array_sort (fun x y : nat * AssignedTrain.t =>
                          byEffectiveArrival (snd x) (snd y)) (zip refs objs)).
  exists (map fst S). split.
  - unfold Heap.sort_byEffectiveArrival.
    rewrite (bind_Some _ _ _ _ _ (getArray_Some _ _ _ Harr)).
    rewrite (bind_Some _ _ _ _ _ (mapM_getAssigned _ _ _ Hf)).
    by eapply put_Some.
  - replace (Array_sort byEffectiveArrival objs) with (map snd S).
    + apply (Forall_fst_snd (fun r t => h !! r = Some (Heap.AssignedObj t))).
      eapply Permutation_Forall; [symmetry; apply Array_sort_perm|].
      by apply (Forall2_zip (fun r t => h !! r = Some (Heap.AssignedObj t))).
    + unfold S.
      rewrite (Array_sort_map snd byEffectiveArrival).
      f_equal. apply snd_zip. apply Forall2_length in Hf. lia.
Qed.

(** C10.  Run on a store that holds the caller's array [trains] of train
    objects, [assignPlatformsScoreBased] returns (it does not throw); every
    object and array of the store before the call is the same after it, so
    the caller's array has the same trains in the same order, with the same
    fields; and the platforms it returns, read back from the store, are the
    result of the pure model. *)
Theorem assign_leaves_input (h : list Heap.obj) (trains : nat)
    (ts : list Train.t) (weights : ScoringWeights.t) :
  Heap.holds_trains h trains ts ->
  exists platforms h',
    Heap.assignPlatformsScoreBased trains weights h = Some (platforms, h') /\
    take (length h) h' = h /\
    Heap.holds_trains h' trains ts /\
    Heap.viewPlatforms platforms h'
    = Some (assignPlatformsScoreBased ts weights, h').
Proof.
  intros Hin.
  set (n0 := length h).
  set (objs := map withEffective1 ts).
  set (refs := seq n0 (length ts)).
  set (arr := (n0 + length ts)%nat).
  set (h1 := h ++ map (fun t => Heap.AssignedObj (withEffective1 t)) ts
               ++ [Heap.ArrayObj refs]).
  assert (h1 !! arr = Some (Heap.ArrayObj refs)) as Harr.
  { unfold h1. rewrite app_assoc. apply list_lookup_middle.
    by rewrite length_app, length_map. }
  assert (Forall2 (fun r t => h1 !! r = Some (Heap.AssignedObj t)) refs objs) as Hobjs.
  { apply Forall2_same_length_lookup_2.
    { unfold refs, objs. by rewrite length_seq, length_map. }
    intros i r t Hr Ht. apply lookup_seq in Hr as [-> Hi].
    unfold h1. rewrite lookup_app_r by (unfold n0; lia).
    replace (n0 + i - length h)%nat with i by (unfold n0; lia).
    apply lookup_app_l_Some. rewrite list_lookup_fmap.
    unfold objs in Ht. rewrite list_lookup_fmap in Ht.
    destruct (ts !! i); [|done]. cbn in *. congruence. }
  destruct (sort_byEffectiveArrival_Some _ _ _ _ Harr Hobjs) as (srefs & Hsort & Hsrefs).
  fold (withEffective ts) in Hsrefs.
  set (h2 := <[arr := Heap.ArrayObj srefs]> h1) in *.
  set (h3 := h2 ++ [Heap.ArrayObj []]).
  set (P := length h2).
  assert (length h2 = S arr) as Hl2.
  { unfold h2, h1. rewrite length_insert, !length_app, length_map. cbn. unfold arr, n0. lia. }
  assert (forall r, (r < n0)%nat -> h3 !! r = h !! r) as Hold3.
  { intros r Hr. unfold h3.
    rewrite lookup_app_l by (rewrite Hl2; unfold arr; lia).
    unfold h2. rewrite list_lookup_insert_ne by (unfold arr; lia).
    unfold h1. by rewrite lookup_app_l. }
  assert (Forall2 (fun r t => h3 !! r = Some (Heap.AssignedObj t)) srefs (withEffective ts))
    as Hsrefs3.
  { eapply Forall2_impl; [exact Hsrefs|]. intros r t Hr.
    apply lookup_app_l_Some.
    by apply (insert_keeps_assigned h1 arr _ (Heap.ArrayObj refs)). }
  assert (Heap.platforms_at n0 h3 P []) as Hat3.
  { exists []. cbn. split; [by apply list_lookup_middle|].
    split; [constructor|]. split; [constructor|].
    split; [apply NoDup_singleton|].
    constructor; [|constructor]. unfold P. rewrite Hl2. unfold arr. lia. }
  destruct (heap_forEach n0 weights P _ _ _ _ Hat3 Hsrefs3) as (h4 & Hloop & Hat4 & Hst).
  assert (forall r, (r < n0)%nat -> h4 !! r = h !! r) as Hold4.
  { intros r Hr. destruct Hst as [Hst _]. by rewrite Hst, Hold3. }
  exists P, h4. split; [|split; [|split]].
  - unfold Heap.assignPlatformsScoreBased.
    rewrite (bind_Some _ _ _ _ _ (map_withEffective_Some _ _ _ Hin)).
    fold n0 arr refs h1.
    rewrite (bind_Some _ _ _ _ _ Hsort). fold h2.
    rewrite (bind_Some _ _ h2 P h3) by reflexivity.
    rewrite (bind_Some _ _ h3 srefs h3).
    2: { apply getArray_Some. unfold h3. apply lookup_app_l_Some.
         unfold h2. apply list_lookup_insert_eq. by eapply lookup_lt_Some. }
    by rewrite (bind_Some _ _ _ _ _ Hloop).
  - apply list_eq. intros i.
    destruct (decide (i < n0)%nat) as [Hi|Hi].
    + rewrite lookup_take_lt by done. by apply Hold4.
    + rewrite lookup_take_ge by lia. symmetry. apply lookup_ge_None. unfold n0 in Hi. lia.
  - destruct Hin as (elems & He & Hf). exists elems. split.
    + rewrite Hold4; [done|]. exact (lookup_lt_Some _ _ _ He).
    + eapply Forall2_impl; [exact Hf|]. intros r t Hr.
      rewrite Hold4; [done|]. exact (lookup_lt_Some _ _ _ Hr).
  - by apply (viewPlatforms_Some n0).
Qed.

Lemma assign_leaves_input_witness :
  exists platforms h',
    Heap.assignPlatformsScoreBased 3 DEFAULT_WEIGHTS Heap.exStore = Some (platforms, h') /\
    take (length Heap.exStore) h' = Heap.exStore /\
    Heap.holds_trains h' 3 [exA; exB; exC] /\
    Heap.viewPlatforms platforms h'
    = Some (assignPlatformsScoreBased [exA; exB; exC] DEFAULT_WEIGHTS, h').
Proof.
  apply (assign_leaves_input Heap.exStore 3 [exA; exB; exC] DEFAULT_WEIGHTS).
  exists [0; 1; 2]%nat. split; [reflexivity|].
  repeat constructor.
Defined.

(* ------------------------------------------------------------------ *)
(** * Further properties of the code *)

(** ** The assignment *)

(** X1.  No platform returned by [assignPlatformsScoreBased] is empty, and
    there are at most as many platforms as trains, and at least one when
    there is a train. *)
Theorem platforms_count (trains : list Train.t) (weights : ScoringWeights.t) :
  Forall (fun pl => (0 < length (Platform.trains pl))%nat)
    (assignPlatformsScoreBased trains weights) /\
  (Nat.min 1 (length trains) <= length (assignPlatformsScoreBased trains weights)
   <= length trains)%nat.
Proof.
  pose proof (trains_nonempty trains weights) as Hne.
  split; [exact Hne|].
  assert (sum_list (map (fun pl => length (Platform.trains pl))
                      (assignPlatformsScoreBased trains weights))
          = length trains) as Hsum.
  { rewrite assigned_length, (Permutation_length (assign_assigned _ _)).
    apply length_map. }
  revert Hne Hsum.
  generalize (assignPlatformsScoreBased trains weights) as ps.
  intros ps Hne Hsum.
  assert (length ps
          <= sum_list (map (fun pl => length (Platform.trains pl)) ps))%nat as Hle.
  { clear Hsum. induction Hne as [|pl ps Hpl _ IH]; cbn in *; lia. }
  split; [|lia].
  destruct ps as [|p ps].
  - cbn in Hsum. rewrite <- Hsum. cbn. lia.
  - cbn [length]. lia.
Qed.











Lemma Sorted_StronglySorted_dwell (l : list AssignedTrain.t) :
  Forall (fun a => (AssignedTrain.effectiveArrival a
                    <= AssignedTrain.effectiveDeparture a)%Q) l ->
  Sorted (fun a b => (AssignedTrain.effectiveDeparture a
                      <= AssignedTrain.effectiveArrival b)%Q) l ->
  StronglySorted (fun a b => (AssignedTrain.effectiveDeparture a
                              <= AssignedTrain.effectiveArrival b)%Q) l.
Proof.
  intros Hwf Hs. induction Hs as [|a l Hs IH Hhd]; [constructor|].
  apply Forall_cons in Hwf as [Ha Hwf]. specialize (IH Hwf).
  constructor; [exact IH|].
  destruct Hhd as [|b l Hab]; [constructor|].
  apply StronglySorted_inv in IH as [_ Hb].
  apply Forall_cons in Hwf as [Hbwf _].
  constructor; [exact Hab|].
  eapply Forall_impl; [exact Hb|]. cbn. intros c Hc. lra.
Qed.

(** X6.  When no input train departs before it arrives, no two trains of a
    platform overlap, consecutive or not: of any two trains in a returned
    platform's sequence, the earlier has left (effective departure) by the
    time the later arrives (effective arrival). *)
Theorem no_two_trains_overlap (trains : list Train.t) (weights : ScoringWeights.t) :
  Forall (fun t => (Train.arrival t <= Train.departure t)%Q) trains ->
  Forall
    (fun pl =>
       StronglySorted
         (fun a b => (AssignedTrain.effectiveDeparture a
                      <= AssignedTrain.effectiveArrival b)%Q)
         (Platform.trains pl))
    (assignPlatformsScoreBased trains weights).
Proof.
  intros Hwf.
  assert (Forall (fun a => (AssignedTrain.effectiveArrival a
                            <= AssignedTrain.effectiveDeparture a)%Q)
            (assigned (assignPlatformsScoreBased trains weights))) as Hall.
  { eapply Permutation_Forall; [symmetry; apply assign_assigned|].
    apply Forall_fmap. eapply Forall_impl; [exact Hwf|].
    intros t Ht. cbn beta in Ht. unfold compose, withEffective1.
    cbn [AssignedTrain.effectiveArrival AssignedTrain.effectiveDeparture]. lra. }
  destruct (run_ok weights (withEffective trains)) as [_ Hno].
  fold (assignPlatformsScoreBased trains weights) in Hno.
  revert Hall Hno. generalize (assignPlatformsScoreBased trains weights) as ps.
  induction ps as [|pl ps IH]; intros Hall Hno; [constructor|].
  change (assigned (pl :: ps)) with (Platform.trains pl ++ assigned ps) in Hall.
  apply Forall_app in Hall as [Hpl Hall].
  apply Forall_cons in Hno as [Hnpl Hno].
  constructor; [|by apply IH].
  by apply Sorted_StronglySorted_dwell.
Qed.

Lemma no_two_trains_overlap_witness :
  Forall
    (fun pl =>
       StronglySorted
         (fun a b => (AssignedTrain.effectiveDeparture a
                      <= AssignedTrain.effectiveArrival b)%Q)
         (Platform.trains pl))
    (assignPlatformsScoreBased initializeTrains DEFAULT_WEIGHTS).
Proof.
  apply (no_two_trains_overlap initializeTrains DEFAULT_WEIGHTS).
  repeat constructor; vm_compute; discriminate.
Defined.





(** ** The metrics and the reports *)

Lemma platformMetrics_fold (platforms : list Platform.t)
    (m : gmap nat PlatformMetric.t) (k : nat) :
  fold_left (fun map pl => <[Platform.id pl := metricsOf pl]> map) platforms m !! k
  = match last (List.filter (fun pl => Platform.id pl =? k)%nat platforms) with
    | Some pl => Some (metricsOf pl)
    | None => m !! k
    end.
Proof.
  revert m. induction platforms as [|p ps IH]; intros m; [done|].
  cbn [fold_left List.filter]. rewrite IH.
  destruct (Nat.eqb_spec (Platform.id p) k) as [<-|Hne].
  - destruct (List.filter _ ps) as [|q qs] eqn:E; cbn [last].
    + by rewrite lookup_insert_eq.
    + change (last (p :: q :: qs)) with (last (q :: qs)).
      by destruct (last (q :: qs)) eqn:E'; [|by apply last_None in E'].
  - destruct (last _); [done|]. by rewrite lookup_insert_ne.
Qed.

(** X10.  The metrics map has under a key the figures of the last platform
    of the list that has this id, and nothing when no platform has it; the
    reports then take 0 for [endMetric]. *)
Theorem platformMetrics_get (platforms : list Platform.t) (k : nat)
    (pl : Platform.t) :
  platformMetrics platforms !! k
  = metricsOf <$> last (List.filter (fun p => Platform.id p =? k)%nat platforms) /\
  endMetricOf (platformMetrics platforms) pl
  = match last (List.filter (fun p => Platform.id p =? Platform.id pl)%nat platforms) with
    | Some p => PlatformMetric.endMetric (metricsOf p)
    | None => 0%Q
    end.
Proof.
  assert (forall k,
    platformMetrics platforms !! k
    = metricsOf <$> last (List.filter (fun p => Platform.id p =? k)%nat platforms)) as H.
  { intros k'. unfold platformMetrics. rewrite platformMetrics_fold.
    destruct (last _); [done|]. by rewrite lookup_empty. }
  split; [apply H|].
  unfold endMetricOf. rewrite H. by destruct (last _).
Qed.

Lemma length_flat_map_rows {B} (f : Platform.t -> AssignedTrain.t -> B)
    (platforms : list Platform.t) :
  length (flat_map (fun pl => map (f pl) (Platform.trains pl)) platforms)
  = length (assigned platforms).
Proof.
  induction platforms as [|pl ps IH]; [done|].
  change (assigned (pl :: ps)) with (Platform.trains pl ++ assigned ps).
  cbn [flat_map]. by rewrite !length_app, length_map, IH.
Qed.

Lemma flat_map_rows_map {B C} (g : B -> C) (h : AssignedTrain.t -> C)
    (f : Platform.t -> AssignedTrain.t -> B) (platforms : list Platform.t) :
  (forall pl t, g (f pl t) = h t) ->
  map g (flat_map (fun pl => map (f pl) (Platform.trains pl)) platforms)
  = map h (assigned platforms).
Proof.
  intros Hg. induction platforms as [|pl ps IH]; [done|].
  change (assigned (pl :: ps)) with (Platform.trains pl ++ assigned ps).
  cbn [flat_map]. rewrite !map_app, IH, map_map. f_equal.
  apply map_ext. intros t. apply Hg.
Qed.

(** X11.  Each of the three reports has one row for each input train, in the
    order of the platforms and of their sequences: the rows are as many as
    the trains, the chart's [train] ids are the input ids rearranged, its
    [prevDelay] column is the trains' delays, and the rows of the two tables
    name the same trains in the same order. *)
Theorem reports_cover_trains (trains : list Train.t) (weights : ScoringWeights.t) :
  let platforms := assignPlatformsScoreBased trains weights in
  let metrics := platformMetrics platforms in
  length (delayComparisonData platforms metrics) = length trains /\
  length (schedulingMetrics platforms metrics) = length trains /\
  length (reachTimes platforms metrics) = length trains /\
  Permutation (map DelayComparison.train (delayComparisonData platforms metrics))
    (map Train.id trains) /\
  map DelayComparison.prevDelay (delayComparisonData platforms metrics)
  = map AssignedTrain.delay (assigned platforms) /\
  map SchedulingMetric.name (schedulingMetrics platforms metrics)
  = map ReachTime.name (reachTimes platforms metrics).
Proof.
  intros platforms metrics.
  assert (length (assigned platforms) = length trains) as Hlen.
  { unfold platforms. rewrite (Permutation_length (assign_assigned _ _)).
    apply length_map. }
  unfold delayComparisonData, schedulingMetrics, reachTimes.
  rewrite !length_flat_map_rows.
  repeat split; try exact Hlen.
  - rewrite (flat_map_rows_map DelayComparison.train AssignedTrain.id) by done.
    unfold platforms. rewrite assign_assigned, map_map. reflexivity.
  - by apply flat_map_rows_map.
  - rewrite (flat_map_rows_map SchedulingMetric.name AssignedTrain.name) by done.
    by rewrite (flat_map_rows_map ReachTime.name AssignedTrain.name).
Qed.


(** ** The labels *)

Lemma String_append_assoc (a b c : string) :
  String.append (String.append a b) c = String.append a (String.append b c).
Proof.
  induction a as [|x a IH]; [reflexivity|].
  change (String.String x (String.append (String.append a b) c)
          = String.String x (String.append a (String.append b c))).
  by rewrite IH.
Qed.

Lemma minutesToLabel_checked :
  forallb
    (fun k =>
       String.eqb (minutesToLabel (Z.of_nat k - 480))
         (String.append (two_digits (Z.of_nat k / 60))
            (String.append ":" (two_digits (Z.of_nat k mod 60)))))
    (seq 0 1440)
  = true.
Proof. vm_compute. reflexivity. Qed.

(** X16.  From 00:00 to 23:59 on the clock, that is from 480 minutes before
    the start of the window to 959 minutes after it, [minutesToLabel] gives
    five characters: the hour in two digits, a colon and the minutes in two
    digits, where the hour is [(480 + minFromStart) / 60] rounded down and
    the minutes are the remainder. *)
Theorem minutesToLabel_format (minFromStart : Z) :
  (-480 <= minFromStart < 960)%Z ->
  minutesToLabel minFromStart
  = String.append (two_digits ((480 + minFromStart) / 60))
      (String.append ":" (two_digits ((480 + minFromStart) mod 60))) /\
  String.length (minutesToLabel minFromStart) = 5%nat.
Proof.
  intros Hm.
  pose proof minutesToLabel_checked as H.
  rewrite forallb_forall in H.
  specialize (H (Z.to_nat (480 + minFromStart))).
  rewrite Z2Nat.id in H by lia.
  replace (480 + minFromStart - 480)%Z with minFromStart in H by lia.
  assert (In (Z.to_nat (480 + minFromStart)) (seq 0 1440)) as Hin
    by (apply in_seq; lia).
  apply H, String.eqb_eq in Hin.
  split; [exact Hin|]. rewrite Hin. reflexivity.
Qed.

Lemma minutesToLabel_format_witness :
  minutesToLabel 75 = "09:15" /\ String.length (minutesToLabel 75) = 5%nat.
Proof.
  apply (minutesToLabel_format 75). lia.
Defined.

Lemma Math_round_whole (k : Z) : Math_round (inject_Z k * 60) = (k * 60)%Z.
Proof.
  unfold Math_round.
  assert (inject_Z k * 60 + (1 # 2) == inject_Z (k * 60) + (1 # 2))%Q as E
    by (rewrite inject_Z_mult; reflexivity).
  rewrite (Qfloor_comp _ _ E). apply Qfloor_half.
Qed.

Lemma Math_round_nonpos (x : Q) : (x <= 0)%Q -> Z.max 0 (Math_round (x * 60)) = 0%Z.
Proof.
  intros Hx. unfold Math_round.
  pose proof (Qfloor_le (x * 60 + (1 # 2))) as Hlo.
  assert (inject_Z (Qfloor (x * 60 + (1 # 2))) < inject_Z 1)%Q as H1
    by (change (inject_Z 1) with 1%Q; lra).
  rewrite <- Zlt_Qlt in H1. lia.
Qed.

(** X17.  For a whole number of minutes from 0 to 1000000000, where the
    seconds and the quotients are exact in the program's numbers too,
    [minutesToLabelWithSeconds] gives the label of [minutesToLabel] followed
    by [:00].  For a time at or before the start of the window it gives
    [08:00:00], where [minutesToLabel] goes back before 08:00. *)
Theorem minutesToLabelWithSeconds_whole (m : Z) (x : Q) :
  ((0 <= m <= 1000000000)%Z ->
   minutesToLabelWithSeconds (inject_Z m)
   = String.append (minutesToLabel m) ":00") /\
  ((x <= 0)%Q -> minutesToLabelWithSeconds x = "08:00:00").
Proof.
  split.
  - intros Hm. unfold minutesToLabelWithSeconds, minutesToLabel.
    cbv zeta. rewrite Math_round_whole, Z.max_r by lia.
    assert ((m * 60 + 8 * 60 * 60) / 3600 = (8 * 60 + m) / 60)%Z as ->
      by (Z.div_mod_to_equations; lia).
    assert (Z.rem (m * 60 + 8 * 60 * 60) 3600 / 60 = Z.rem (8 * 60 + m) 60)%Z as ->.
    { rewrite !Z.rem_mod_nonneg by lia. Z.div_mod_to_equations. lia. }
    assert (Z.rem (m * 60 + 8 * 60 * 60) 60 = 0)%Z as ->.
    { rewrite Z.rem_mod_nonneg by lia. Z.div_mod_to_equations. lia. }
    rewrite !String_append_assoc. reflexivity.
  - intros Hx. unfold minutesToLabelWithSeconds. cbv zeta.
    rewrite Math_round_nonpos by done. reflexivity.
Qed.

Lemma minutesToLabelWithSeconds_whole_witness :
  minutesToLabelWithSeconds (inject_Z 75) = String.append (minutesToLabel 75) ":00" /\
  minutesToLabelWithSeconds (-5) = "08:00:00".
Proof.
  split.
  - apply (proj1 (minutesToLabelWithSeconds_whole 75 0)). lia.
  - apply (proj2 (minutesToLabelWithSeconds_whole 0 (-5))). vm_compute. discriminate.
Defined.

(** X18.  [formatMinSec] shows no time at or below zero: it gives [0:00].
    For a whole number [k] of minutes from 0 to 1000000000, where the
    seconds and the quotient are exact in the program's numbers too, it
    gives [k] followed by [:00]. *)
Theorem formatMinSec_edges (k : Z) (x : Q) :
  ((x <= 0)%Q -> formatMinSec x = "0:00") /\
  ((0 <= k <= 1000000000)%Z -> formatMinSec (inject_Z k) = String.append (String_of k) ":00").
Proof.
  split.
  - intros Hx. unfold formatMinSec. cbv zeta.
    rewrite Math_round_nonpos by done. reflexivity.
  - intros Hk. unfold formatMinSec. cbv zeta.
    rewrite Math_round_whole, Z.max_r by lia.
    rewrite Z.div_mul by lia.
    assert (Z.rem (k * 60) 60 = 0)%Z as ->.
    { rewrite Z.rem_mod_nonneg by lia. apply Z_mod_mult. }
    reflexivity.
Qed.

Lemma formatMinSec_edges_witness :
  formatMinSec (-(11 # 3)) = "0:00" /\ formatMinSec (inject_Z 12) = "12:00".
Proof.
  split.
  - apply (proj1 (formatMinSec_edges 0 (-(11 # 3)))). vm_compute. discriminate.
  - apply (proj2 (formatMinSec_edges 12 0)). lia.
Defined.

(** ** The live update *)

Lemma tick_map_fields delayedIds random k prev :
  map Train.id (tick_map delayedIds random k prev) = map Train.id prev /\
  map Train.name (tick_map delayedIds random k prev) = map Train.name prev /\
  map Train.arrival (tick_map delayedIds random k prev) = map Train.arrival prev /\
  map Train.departure (tick_map delayedIds random k prev) = map Train.departure prev.
Proof.
  revert k. induction prev as [|t prev IH]; intros k; [done|].
  cbn [tick_map]. destruct (decide (Train.id t ∈ delayedIds)).
  - destruct (IH (S k)) as (H1 & H2 & H3 & H4).
    cbn [map Train.id Train.name Train.arrival Train.departure].
    by rewrite H1, H2, H3, H4.
  - destruct (IH k) as (H1 & H2 & H3 & H4).
    cbn [map Train.id Train.name Train.arrival Train.departure].
    by rewrite H1, H2, H3, H4.
Qed.

(** X19.  A tick touches delay and status only: the list it returns has the
    same ids, names, arrivals and departures, in the same order, whatever the
    shuffle and the random numbers are. *)
Theorem tick_keeps_schedule (shuffled : list string) (random : nat -> Q)
    (prev : list Train.t) :
  map Train.id (tick shuffled random prev) = map Train.id prev /\
  map Train.name (tick shuffled random prev) = map Train.name prev /\
  map Train.arrival (tick shuffled random prev) = map Train.arrival prev /\
  map Train.departure (tick shuffled random prev) = map Train.departure prev.
Proof. apply tick_map_fields. Qed.

Lemma tick_map_delays delayedIds random k prev :
  (forall i, (0 <= random i < 1)%Q) ->
  Forall
    (fun t =>
       (Train.status t = OnTime /\ Train.delay t = 0%Q) \/
       (Train.status t = Delayed /\
        exists d : Z, (0 <= d <= 13)%Z /\ Train.delay t = (5 + inject_Z d)%Q))
    (tick_map delayedIds random k prev).
Proof.
  intros Hr. revert k. induction prev as [|t prev IH]; intros k; [constructor|].
  cbn [tick_map]. destruct (decide (Train.id t ∈ delayedIds)).
  - constructor; [|apply IH]. right. split; [done|].
    exists (Qfloor (random k * 14)). split; [|done].
    pose proof (Qfloor_le (random k * 14)) as Hlo.
    pose proof (Qlt_floor (random k * 14)) as Hhi.
    destruct (Hr k) as [H0 H1].
    assert (inject_Z (-1) < inject_Z (Qfloor (random k * 14)))%Q as Ha.
    { rewrite inject_Z_plus in Hhi. change (inject_Z 1) with 1%Q in Hhi.
      change (inject_Z (-1)) with (-1)%Q. lra. }
    assert (inject_Z (Qfloor (random k * 14)) < inject_Z 14)%Q as Hb
      by (change (inject_Z 14) with 14%Q; lra).
    rewrite <- Zlt_Qlt in Ha, Hb. lia.
  - constructor; [|apply IH]. by left.
Qed.

(** X20.  With random numbers from 0 (included) to 1 (excluded), every train
    after a tick is either on time with delay 0, or delayed with a whole
    number of minutes of delay from 5 to 18. *)
Theorem tick_delays (shuffled : list string) (random : nat -> Q)
    (prev : list Train.t) :
  (forall i, (0 <= random i < 1)%Q) ->
  Forall
    (fun t =>
       (Train.status t = OnTime /\ Train.delay t = 0%Q) \/
       (Train.status t = Delayed /\
        exists d : Z, (0 <= d <= 13)%Z /\ Train.delay t = (5 + inject_Z d)%Q))
    (tick shuffled random prev).
Proof. apply tick_map_delays. Qed.

Lemma tick_delays_witness :
  Forall
    (fun t =>
       (Train.status t = OnTime /\ Train.delay t = 0%Q) \/
       (Train.status t = Delayed /\
        exists d : Z, (0 <= d <= 13)%Z /\ Train.delay t = (5 + inject_Z d)%Q))
    (tick ["T3"; "T9"; "T1"] (fun _ => 0.95%Q) initializeTrains).
Proof.
  apply (tick_delays ["T3"; "T9"; "T1"] (fun _ => 0.95%Q) initializeTrains).
  intros i. split; vm_compute; [discriminate|reflexivity].
Defined.

Lemma tick_map_delayedCount delayedIds random k prev :
  delayedCount (tick_map delayedIds random k prev)
  = length (filter (fun x => x ∈ delayedIds) (map Train.id prev)).
Proof.
  revert k. induction prev as [|t prev IH]; intros k; [done|].
  cbn [tick_map map]. rewrite filter_cons.
  destruct (decide (Train.id t ∈ delayedIds)).
  - unfold delayedCount in *. cbn. by rewrite IH.
  - unfold delayedCount in *. cbn. by rewrite IH.
Qed.

Lemma filter_in_set_length (S : gset string) (l : list string) :
  NoDup l -> (forall x, x ∈ S -> x ∈ l) ->
  length (filter (fun x => x ∈ S) l) = size S.
Proof.
  intros Hnd Hsub.
  rewrite <- (size_list_to_set (C := gset string)) by (by apply NoDup_filter).
  f_equal. apply set_eq. intros x.
  rewrite elem_of_list_to_set, list_elem_of_filter.
  split; [by intros [? ?]|]. intros Hx. split; [done|by apply Hsub].
Qed.

(** X21.  When the ids of the trains are all different, a tick leaves
    exactly two trains delayed, or all of them when there are fewer than two,
    and the on-time counter shows the rest. *)
Theorem tick_two_delayed (shuffled : list string) (random : nat -> Q)
    (prev : list Train.t) :
  Permutation shuffled (map Train.id prev) ->
  NoDup (map Train.id prev) ->
  delayedCount (tick shuffled random prev) = Nat.min 2 (length prev) /\
  onTimeCount (tick shuffled random prev)
  = (Z.of_nat (length prev) - Z.of_nat (Nat.min 2 (length prev)))%Z.
Proof.
  intros Hp Hnd.
  assert (delayedCount (tick shuffled random prev) = Nat.min 2 (length prev)) as Hd.
  { unfold tick. rewrite tick_map_delayedCount.
    rewrite filter_in_set_length.
    - rewrite size_list_to_set.
      + rewrite length_take, (Permutation_length Hp), length_map. done.
      + eapply sublist_NoDup; [|apply sublist_take]. by rewrite Hp.
    - done.
    - intros x Hx. apply elem_of_list_to_set in Hx.
      rewrite <- Hp. apply elem_of_take in Hx as (i & Hi & _).
      by eapply list_elem_of_lookup_2. }
  split; [exact Hd|].
  unfold onTimeCount. rewrite Hd.
  pose proof (f_equal (@length _) (proj1 (tick_keeps_schedule shuffled random prev))) as Hl.
  rewrite !length_map in Hl. by rewrite Hl.
Qed.

Lemma tick_two_delayed_witness :
  delayedCount (tick ["T3"; "T1"; "T2"] (fun _ => 0.95%Q) [exD1; exD2; exD3]) = 2%nat /\
  onTimeCount (tick ["T3"; "T1"; "T2"] (fun _ => 0.95%Q) [exD1; exD2; exD3]) = 1%Z.
Proof.
  apply (tick_two_delayed ["T3"; "T1"; "T2"] (fun _ => 0.95%Q) [exD1; exD2; exD3]).
  - apply (Permutation_cons_append ["T1"; "T2"] "T3").
  - cbn [map Train.id exD1 exD2 exD3].
    repeat (apply NoDup_cons_2;
            [rewrite ?elem_of_cons, elem_of_nil; intros H;
             repeat (destruct H as [H|H]; [discriminate H|]); exact H|]).
    apply NoDup_nil_2.
Defined.

(* ------------------------------------------------------------------ *)
(** * The code on doubles *)

(** ** The order of doubles

    [<] on doubles, through its specification on sign, mantissa and
    exponent: it is transitive, and a double that is not NaN is either below
    another or not above it. *)

Section SpecFloatOrder.
Import SpecFloat.

Lemma SFltb_trans (a b c : spec_float) :
  SFltb a b = true -> SFltb b c = true -> SFltb a c = true.
Proof.
  unfold SFltb, SFcompare.
  destruct a as [sa|sa| |sa ma ea], b as [sb|sb| |sb mb eb],
    c as [sc|sc| |sc mc ec];
    try destruct sa; try destruct sb; try destruct sc;
    try discriminate; try reflexivity;
    change (PosDef.Pos.compare_cont Eq) with Pos.compare;
    destruct (Z.compare_spec ea eb), (Z.compare_spec eb ec), (Z.compare_spec ea ec);
    try discriminate; try reflexivity; try lia; subst;
    destruct (Pos.compare_spec ma mb), (Pos.compare_spec mb mc),
      (Pos.compare_spec ma mc);
    cbn; try discriminate; try reflexivity; lia.
Qed.

Lemma SFltb_cotrans (a b c : spec_float) :
  SFltb a b = true -> SFltb c b = false ->
  SFltb c (S754_infinity false) = true -> SFltb a c = true.
Proof.
  unfold SFltb, SFcompare.
  destruct a as [sa|sa| |sa ma ea], b as [sb|sb| |sb mb eb],
    c as [sc|sc| |sc mc ec];
    try destruct sa; try destruct sb; try destruct sc;
    try discriminate; try reflexivity;
    change (PosDef.Pos.compare_cont Eq) with Pos.compare;
    destruct (Z.compare_spec ea eb), (Z.compare_spec ec eb), (Z.compare_spec ea ec);
    try discriminate; try reflexivity; try lia; subst;
    destruct (Pos.compare_spec ma mb), (Pos.compare_spec mc mb),
      (Pos.compare_spec ma mc);
    cbn; try discriminate; try reflexivity; lia.
Qed.

Lemma SFltb_irrefl (a : spec_float) : SFltb a a = false.
Proof.
  unfold SFltb, SFcompare.
  destruct a as [sa|sa| |sa ma ea]; try destruct sa; try reflexivity;
    change (PosDef.Pos.compare_cont Eq) with Pos.compare;
    rewrite Z.compare_refl, Pos.compare_refl; reflexivity.
Qed.

Lemma SFltb_below_infinity (a b : spec_float) :
  SFltb a b = true -> SFltb a (S754_infinity false) = true.
Proof.
  unfold SFltb, SFcompare.
  destruct a as [sa|sa| |sa ma ea], b as [sb|sb| |sb mb eb];
    try destruct sa; try destruct sb; try discriminate; reflexivity.
Qed.

Lemma SFeqb_of_not_ltb (a b : spec_float) :
  SFltb a b = false -> SFltb b a = false ->
  SFltb a (S754_infinity false) = true ->
  SFltb b (S754_infinity false) = true ->
  SFeqb a b = true.
Proof.
  unfold SFltb, SFeqb, SFcompare.
  destruct a as [sa|sa| |sa ma ea], b as [sb|sb| |sb mb eb];
    try destruct sa; try destruct sb; try discriminate; try reflexivity;
    change (PosDef.Pos.compare_cont Eq) with Pos.compare;
    destruct (Z.compare_spec ea eb), (Z.compare_spec eb ea);
    try discriminate; try reflexivity; try lia; subst;
    destruct (Pos.compare_spec ma mb), (Pos.compare_spec mb ma);
    cbn; try discriminate; try reflexivity; lia.
Qed.
End SpecFloatOrder.

Section FloatOrder.
Import PrimFloat.

Lemma Prim2SF_infinity : FloatOps.Prim2SF infinity = SpecFloat.S754_infinity false.
Proof. reflexivity. Qed.

Lemma ltb_trans (x y z : float) :
  (x <? y)%float = true -> (y <? z)%float = true -> (x <? z)%float = true.
Proof. rewrite !FloatAxioms.ltb_spec. apply SFltb_trans. Qed.

Lemma ltb_cotrans (x y z : float) :
  (x <? y)%float = true -> (z <? y)%float = false ->
  (z <? infinity)%float = true -> (x <? z)%float = true.
Proof.
  rewrite !FloatAxioms.ltb_spec, Prim2SF_infinity. apply SFltb_cotrans.
Qed.

Lemma ltb_irrefl (x : float) : (x <? x)%float = false.
Proof. rewrite FloatAxioms.ltb_spec. apply SFltb_irrefl. Qed.

Lemma ltb_below_infinity (x y : float) :
  (x <? y)%float = true -> (x <? infinity)%float = true.
Proof.
  rewrite !FloatAxioms.ltb_spec, Prim2SF_infinity. apply SFltb_below_infinity.
Qed.

Lemma eqb_of_not_ltb (x y : float) :
  (x <? y)%float = false -> (y <? x)%float = false ->
  (x <? infinity)%float = true -> (y <? infinity)%float = true ->
  (x =? y)%float = true.
Proof.
  rewrite !FloatAxioms.ltb_spec, FloatAxioms.eqb_spec, Prim2SF_infinity.
  apply SFeqb_of_not_ltb.
Qed.
End FloatOrder.

Lemma ltb_not_below_infinity (x y : PrimFloat.float) :
  PrimFloat.ltb x PrimFloat.infinity = false ->
  PrimFloat.ltb y PrimFloat.infinity = true ->
  PrimFloat.ltb y x = true \/ PrimFloat.is_nan x = true.
Proof.
  unfold PrimFloat.is_nan.
  rewrite !FloatAxioms.ltb_spec, FloatAxioms.eqb_spec, Prim2SF_infinity.
  unfold SpecFloat.SFltb, SpecFloat.SFeqb, SpecFloat.SFcompare.
  destruct (FloatOps.Prim2SF x) as [sa|sa| |sa ma ea],
    (FloatOps.Prim2SF y) as [sb|sb| |sb mb eb];
    try destruct sa; try destruct sb; try discriminate; auto.
Qed.

(** ** The sort and the inner loop on doubles *)

Section DoubleSort.
Import PrimFloat Double.
Context {A : Type}.


End DoubleSort.

Section DoubleScan.
Import PrimFloat Double.
Context (weights : ScoringWeights.t) (train : AssignedTrain.t).


Lemma dbl_scanned_init : scanned weights train [] Best_init.
Proof. left. by repeat split. Qed.

Lemma dbl_first_minimum_snoc_keep seen i pl :
  first_minimum weights train seen i ->
  (eligible weights train pl = true ->
   forall pi, seen !! i = Some pi ->
     (score weights pl train <? score weights pi train)%float = false) ->
  first_minimum weights train (seen ++ [pl]) i.
Proof.
  intros (pi & Hi & Hf & Hle & Hlt) Hpl.
  exists pi. split; [by apply lookup_app_l_Some|]. split; [done|]. split.
  - intros k pk Hk Hfk.
    apply lookup_app_Some in Hk as [Hk|[_ Hk]]; [by eapply Hle|].
    apply list_lookup_singleton_Some in Hk as [_ <-]. by apply Hpl.
  - intros k pk Hki Hk Hfk.
    apply lookup_lt_Some in Hi.
    rewrite lookup_app_l in Hk by lia. by eapply Hlt.
Qed.

Lemma dbl_scanned_step seen pl b :
  scanned weights train seen b ->
  scanned weights train (seen ++ [pl])
    (scan_step weights train (Z.of_nat (length seen)) pl b).
Proof.
  intros Hb. unfold scan_step.
  destruct (feasible pl train) eqn:Hf.
  - destruct Hb as [(Hi & Hs & Hnone)|(i & pi & Hi & Hpi & Hs & Hmin)].
    + rewrite Hs. cbv zeta.
      destruct (score weights pl train <? infinity)%float eqn:Hlt.
      * assert (eligible weights train pl = true) as He
          by (unfold eligible; by rewrite Hf, Hlt).
        right. exists (length seen), pl. split; [done|].
        split; [by rewrite list_lookup_middle|]. split; [done|].
        exists pl. split; [by rewrite list_lookup_middle|]. split; [done|].
        split.
        -- intros k pk Hk Hfk.
           apply lookup_app_Some in Hk as [Hk|[_ Hk]].
           ++ rewrite Forall_lookup in Hnone. specialize (Hnone _ _ Hk). congruence.
           ++ apply list_lookup_singleton_Some in Hk as [_ <-]. apply ltb_irrefl.
        -- intros k pk Hk' Hk Hfk.
           rewrite lookup_app_l in Hk by lia.
           rewrite Forall_lookup in Hnone. specialize (Hnone _ _ Hk). congruence.
      * left. split; [done|]. split; [done|].
        apply Forall_app. split; [done|]. constructor; [|done].
        unfold eligible. by rewrite Hf, Hlt.
    + rewrite Hs. cbv zeta.
      destruct (score weights pl train <? score weights pi train)%float eqn:Hlt.
      * destruct Hmin as (pi' & Hpi' & _ & Hle & _).
        assert (pi' = pi) as -> by congruence.
        assert (eligible weights train pl = true) as He.
        { unfold eligible. rewrite Hf. cbn. by eapply ltb_below_infinity. }
        right. exists (length seen), pl. split; [done|].
        split; [by rewrite list_lookup_middle|]. split; [done|].
        exists pl. split; [by rewrite list_lookup_middle|]. split; [done|].
        split.
        -- intros k pk Hk Hfk.
           apply lookup_app_Some in Hk as [Hk|[_ Hk]].
           ++ specialize (Hle _ _ Hk Hfk).
              destruct (score weights pk train <? score weights pl train)%float eqn:E;
                [|done].
              rewrite (ltb_trans _ _ _ E Hlt) in Hle. done.
           ++ apply list_lookup_singleton_Some in Hk as [_ <-]. apply ltb_irrefl.
        -- intros k pk Hk' Hk Hfk.
           rewrite lookup_app_l in Hk by lia.
           specialize (Hle _ _ Hk Hfk).
           apply (ltb_cotrans _ _ _ Hlt Hle).
           unfold eligible in Hfk. by apply andb_prop in Hfk as [_ ?].
      * right. exists i, pi. split; [done|].
        split; [by apply lookup_app_l_Some|]. split; [done|].
        apply dbl_first_minimum_snoc_keep; [done|].
        intros _ pi' Hpi'. congruence.
  - assert (eligible weights train pl = false) as He
      by (unfold eligible; by rewrite Hf).
    destruct Hb as [(Hi & Hs & Hnone)|(i & pi & Hi & Hpi & Hs & Hmin)].
    + left. split; [done|]. split; [done|].
      apply Forall_app. split; [done|]. by constructor.
    + right. exists i, pi. split; [done|].
      split; [by apply lookup_app_l_Some|]. split; [done|].
      apply dbl_first_minimum_snoc_keep; [done|]. congruence.
Qed.

Lemma dbl_scanned_scan rest seen b :
  scanned weights train seen b ->
  scanned weights train (seen ++ rest)
    (scan weights train rest (Z.of_nat (length seen)) b).
Proof.
  revert seen b. induction rest as [|pl rest IH]; intros seen b Hb.
  - by rewrite app_nil_r.
  - cbn [scan].
    replace (Z.of_nat (length seen) + 1)%Z
      with (Z.of_nat (length (seen ++ [pl])))
      by (rewrite length_app; simpl; lia).
    rewrite (cons_middle pl seen rest), app_assoc.
    apply IH. by apply dbl_scanned_step.
Qed.

(** What the whole inner loop leaves in its two variables. *)
Lemma dbl_scan_scanned platforms :
  scanned weights train platforms (scan weights train platforms 0 Best_init).
Proof. apply (dbl_scanned_scan platforms [] Best_init), dbl_scanned_init. Qed.

(** The two branches of the loop body, by what the inner loop found. *)
Lemma dbl_place_cases platforms :
  (Forall (fun pl => eligible weights train pl = false) platforms /\
   place weights platforms train
   = platforms ++
       [Platform.mk (length platforms + 1) [train]
          (AssignedTrain.effectiveDeparture train)])
  \/
  (exists i pl,
     bestIdx (scan weights train platforms 0 Best_init) = Z.of_nat i /\
     platforms !! i = Some pl /\
     first_minimum weights train platforms i /\
     place weights platforms train = <[i := occupy train pl]> platforms).
Proof.
  unfold place.
  destruct (dbl_scan_scanned platforms) as [(-> & _ & Hn)|(i & pl & -> & Hi & _ & Hmin)].
  - left. by split.
  - right. exists i, pl. split; [done|]. split; [done|]. split; [done|].
    destruct (Z.leb_spec 0 (Z.of_nat i)); [|lia].
    rewrite Nat2Z.id.
    apply list_eq. intros j.
    rewrite list_lookup_alter, list_lookup_insert.
    apply lookup_lt_Some in Hi as Hlt.
    destruct (decide (i = j)) as [<-|Hne].
    + rewrite Hi. simpl. by rewrite decide_True by lia.
    + by rewrite decide_False by tauto.
Qed.
End DoubleScan.

(** ** The outer loop on doubles *)

Section DoubleRun.
Import PrimFloat Double.






(** The ids stay the positions, counted from 1. *)
Lemma dbl_place_ids_ok weights platforms train :
  ids_ok platforms -> ids_ok (place weights platforms train).
Proof.
  intros Hok.
  destruct (dbl_place_cases weights train platforms)
    as [(_ & ->)|(i & pl & _ & Hi & _ & ->)].
  - intros k pk Hk.
    apply lookup_app_Some in Hk as [Hk|[Hge Hk]]; [by apply Hok|].
    apply list_lookup_singleton_Some in Hk as [Hk <-]. cbn. lia.
  - intros k pk Hk.
    destruct (decide (i = k)) as [<-|Hne].
    + rewrite list_lookup_insert_eq in Hk by (by eapply lookup_lt_Some).
      injection Hk as <-. cbn. by apply Hok.
    + rewrite list_lookup_insert_ne in Hk by done. by apply Hok.
Qed.

Lemma dbl_run_ids_ok weights trains platforms :
  ids_ok platforms -> ids_ok (run weights platforms trains).
Proof.
  revert platforms. induction trains as [|t trains IH]; intros ps Hps; [done|].
  cbn [run fold_left]. apply IH, dbl_place_ids_ok, Hps.
Qed.

Lemma dbl_assign_ids_ok trains weights :
  ids_ok (assignPlatformsScoreBased trains weights).
Proof. apply dbl_run_ids_ok. intros i pl Hi. done. Qed.
End DoubleRun.

(** ** The metrics on doubles *)

Section DoubleMetrics.
Import PrimFloat Double.

Lemma dbl_ids_ok_seq platforms :
  ids_ok platforms -> map Platform.id platforms = seq 1 (length platforms).
Proof.
  intros Hok. apply list_eq. intros i.
  rewrite list_lookup_fmap.
  destruct (platforms !! i) as [pl|] eqn:Hi; cbn.
  - rewrite (Hok _ _ Hi).
    symmetry. apply lookup_seq. split; [lia|]. by eapply lookup_lt_Some.
  - symmetry. apply lookup_seq_ge. by apply lookup_ge_None.
Qed.

Lemma dbl_platformMetrics_other (platforms : list Platform.t)
    (m : gmap nat PlatformMetric.t) (k : nat) :
  k ∉ map Platform.id platforms ->
  fold_left (fun map pl => <[Platform.id pl := metricsOf pl]> map) platforms m !! k
  = m !! k.
Proof.
  revert m. induction platforms as [|pl ps IH]; intros m Hk; [done|].
  cbn [fold_left]. cbn in Hk. apply not_elem_of_cons in Hk as [Hne Hk].
  rewrite IH by done. by rewrite lookup_insert_ne.
Qed.

Lemma dbl_platformMetrics_lookup (platforms : list Platform.t) (pl : Platform.t) :
  NoDup (map Platform.id platforms) ->
  pl ∈ platforms ->
  platformMetrics platforms !! Platform.id pl = Some (metricsOf pl).
Proof.
  unfold platformMetrics. generalize (∅ : gmap nat PlatformMetric.t).
  induction platforms as [|p ps IH]; intros m Hnd Hin.
  - by apply elem_of_nil in Hin.
  - cbn in Hnd. apply NoDup_cons in Hnd as [Hp Hnd].
    cbn [fold_left]. apply elem_of_cons in Hin as [->|Hin].
    + rewrite dbl_platformMetrics_other by done. by rewrite lookup_insert_eq.
    + by apply IH.
Qed.

Lemma dbl_endMetricOf_metricsOf trains weights :
  Forall
    (fun pl =>
       endMetricOf (platformMetrics (assignPlatformsScoreBased trains weights)) pl
       = PlatformMetric.endMetric (metricsOf pl))
    (assignPlatformsScoreBased trains weights).
Proof.
  apply Forall_forall. intros pl Hpl. unfold endMetricOf.
  rewrite dbl_platformMetrics_lookup; [done| |done].
  rewrite dbl_ids_ok_seq by apply dbl_assign_ids_ok. apply NoDup_seq.
Qed.

Lemma dbl_flat_map_Forall_ext {A B} (f g : A -> list B) (l : list A) :
  Forall (fun x => f x = g x) l -> flat_map f l = flat_map g l.
Proof.
  induction 1 as [|x l Hx _ IH]; [reflexivity|]. cbn. by rewrite Hx, IH.
Qed.
End DoubleMetrics.

(** ** Whole minutes as doubles *)

Section DoubleWhole.
Import PrimFloat Double.

Lemma whole_from_In (n : nat) (lo z : Z) :
  (lo <= z < lo + Z.of_nat n)%Z -> In z (whole_from lo n).
Proof.
  revert lo. induction n as [|n IH]; intros lo Hz; [lia|].
  cbn [whole_from]. destruct (decide (z = lo)) as [->|Hne]; [by left|].
  right. apply IH. lia.
Qed.

Lemma whole_range_In (lo hi z : Z) :
  (lo <= z <= hi)%Z -> In z (whole_range lo hi).
Proof. intros Hz. apply whole_from_In. lia. Qed.

(** Sums of a time of day and a delay, and differences of two such sums, are
    exact: checked for every pair. *)
Lemma dbl_add_checked :
  forallb
    (fun a =>
       forallb (fun d => Leibniz.eqb (of_Z a + of_Z d) (of_Z (a + d)))
         (whole_range (-60) 60))
    (whole_range 0 1440)
  = true.
Proof. vm_compute. reflexivity. Qed.

Lemma dbl_sub_checked :
  let sums := whole_range (-60) 1500 in
  forallb
    (fun u =>
       forallb (fun v => Leibniz.eqb (of_Z u - of_Z v) (of_Z (u - v))) sums)
    sums
  = true.
Proof. vm_compute. reflexivity. Qed.

Lemma dbl_add_whole (a d : Z) :
  (0 <= a <= 1440)%Z -> (-60 <= d <= 60)%Z ->
  (of_Z a + of_Z d)%float = of_Z (a + d).
Proof.
  intros Ha Hd. pose proof dbl_add_checked as H.
  rewrite forallb_forall in H. specialize (H a (whole_range_In _ _ _ Ha)).
  rewrite forallb_forall in H. specialize (H d (whole_range_In _ _ _ Hd)).
  by apply FloatAxioms.Leibniz.eqb_spec.
Qed.

Lemma dbl_sub_whole (u v : Z) :
  (-60 <= u <= 1500)%Z -> (-60 <= v <= 1500)%Z ->
  (of_Z u - of_Z v)%float = of_Z (u - v).
Proof.
  intros Hu Hv. pose proof dbl_sub_checked as H. cbv zeta in H.
  rewrite forallb_forall in H. specialize (H u (whole_range_In _ _ _ Hu)).
  rewrite forallb_forall in H. specialize (H v (whole_range_In _ _ _ Hv)).
  by apply FloatAxioms.Leibniz.eqb_spec.
Qed.
End DoubleWhole.

(** ** The pick, the effective interval and the reports on doubles *)

Section DoubleClaims.
Import PrimFloat.
#[local] Set Warnings "-inexact-float".

(** C3, as stated, fails on the program's numbers.  With the weight
    [idleGap = 1e308], trains A (0 to 20) and B (5 to 20) are on platforms 1
    and 2, and train C arrives at 30.  Both platforms are feasible for C and
    both score [1e308 * 10 + 0.3 + 0], which is [+Infinity] on doubles: the
    same minimal score.  [score < bestScore] is then false for both, since
    [bestScore] starts at [+Infinity], and C goes to neither: the loop opens
    platform 3. *)
Lemma feasible_platform_skipped :
  let train := Double.withEffective1 (Double.onTime "C" 30 40) in
  Double.run Double.exHuge []
    (Double.withEffective [Double.onTime "A" 0 20; Double.onTime "B" 5 20])
  = Double.exTie /\
  Forall
    (fun pl =>
       Double.feasible pl train = true /\
       Double.score Double.exHuge pl train = infinity)
    Double.exTie /\
  Double.place Double.exHuge Double.exTie train
  = Double.exTie ++ [Double.Platform.mk 3 [train] 40] /\
  Double.assignPlatformsScoreBased Double.exABC Double.exHuge
  = Double.exTie ++ [Double.Platform.mk 3 [train] 40] /\
  ~ (exists i pi,
       Double.exTie !! i = Some pi /\
       Double.place Double.exHuge Double.exTie train
       = <[i := Double.occupy train pi]> Double.exTie).
Proof.
  cbv zeta.
  split; [vm_compute; reflexivity|].
  split; [repeat constructor; vm_compute; reflexivity|].
  assert (Double.place Double.exHuge Double.exTie
            (Double.withEffective1 (Double.onTime "C" 30 40))
          = Double.exTie
            ++ [Double.Platform.mk 3
                  [Double.withEffective1 (Double.onTime "C" 30 40)] 40]) as Hp
    by (vm_compute; reflexivity).
  split; [exact Hp|].
  split; [vm_compute; reflexivity|].
  intros (i & pi & _ & Hi).
  rewrite Hp in Hi. apply (f_equal length) in Hi.
  rewrite length_insert, length_app in Hi. cbn in Hi. lia.
Qed.

(** C3, as it holds of the code.  In a round of the loop, let platform [j]
    be feasible with a score below [+Infinity], and let no feasible platform
    score less.  Then the inner loop picks a platform [i], at or before [j]
    in the list, feasible and of the same score, and the train goes to it;
    every feasible platform before [i] scores strictly more, or has the
    score NaN.  Where ids follow positions, as they do throughout a run
    ([dbl_run_ids_ok]), the id of [i] is at most the id of [j]. *)
Theorem first_minimum_wins (weights : Double.ScoringWeights.t)
    (platforms : list Double.Platform.t) (train : Double.AssignedTrain.t)
    (j : nat) (pj : Double.Platform.t) :
  platforms !! j = Some pj ->
  Double.feasible pj train = true ->
  (Double.score weights pj train <? infinity)%float = true ->
  (forall k pk, platforms !! k = Some pk -> Double.feasible pk train = true ->
     (Double.score weights pk train <? Double.score weights pj train)%float = false) ->
  exists i pi,
    Double.bestIdx (Double.scan weights train platforms 0 Double.Best_init)
    = Z.of_nat i /\
    platforms !! i = Some pi /\
    Double.place weights platforms train
    = <[i := Double.occupy train pi]> platforms /\
    (i <= j)%nat /\
    Double.feasible pi train = true /\
    (Double.score weights pi train =? Double.score weights pj train)%float = true /\
    (forall k pk, (k < i)%nat -> platforms !! k = Some pk ->
       Double.feasible pk train = true ->
       (Double.score weights pi train <? Double.score weights pk train)%float = true
       \/ is_nan (Double.score weights pk train) = true) /\
    (Double.ids_ok platforms ->
     (Double.Platform.id pi <= Double.Platform.id pj)%nat).
Proof.
  intros Hj Hfj Hinfj Hminj.
  assert (Double.eligible weights train pj = true) as Hej
    by (unfold Double.eligible; by rewrite Hfj, Hinfj).
  destruct (dbl_place_cases weights train platforms)
    as [(Hn & _)|(i & pi & Hi & Hpi & Hmin & Hplace)].
  - rewrite Forall_lookup in Hn. specialize (Hn _ _ Hj). congruence.
  - destruct Hmin as (pi' & Hpi' & Hei & Hle & Hlt).
    assert (pi' = pi) as -> by congruence.
    pose proof Hei as Hei'. unfold Double.eligible in Hei'.
    apply andb_prop in Hei' as [Hfi Hinfi].
    pose proof (Hle _ _ Hj Hej) as H1.
    pose proof (Hminj _ _ Hpi Hfi) as H2.
    assert (i <= j)%nat as Hij.
    { destruct (decide (i <= j)%nat) as [|Hn]; [done|].
      assert (j < i)%nat as Hji by lia.
      pose proof (Hlt _ _ Hji Hj Hej). congruence. }
    exists i, pi. repeat split; try done.
    + by apply eqb_of_not_ltb.
    + intros k pk Hk Hpk Hfk.
      destruct (Double.score weights pk train <? infinity)%float eqn:Hinfk.
      * left. apply (Hlt _ _ Hk Hpk). unfold Double.eligible.
        by rewrite Hfk, Hinfk.
      * by apply ltb_not_below_infinity.
    + intros Hok. rewrite (Hok _ _ Hpi), (Hok _ _ Hj). lia.
Qed.

Lemma first_minimum_wins_witness :
  let train := Double.withEffective1 (Double.onTime "C" 30 40) in
  let pj := Double.Platform.mk 2 [Double.withEffective1 (Double.onTime "B" 5 20)] 20 in
  exists i pi,
    Double.bestIdx (Double.scan Double.DEFAULT_WEIGHTS train Double.exTie 0
                      Double.Best_init)
    = Z.of_nat i /\
    Double.exTie !! i = Some pi /\
    Double.place Double.DEFAULT_WEIGHTS Double.exTie train
    = <[i := Double.occupy train pi]> Double.exTie /\
    (i <= 1)%nat /\
    Double.feasible pi train = true /\
    (Double.score Double.DEFAULT_WEIGHTS pi train
     =? Double.score Double.DEFAULT_WEIGHTS pj train)%float = true /\
    (forall k pk, (k < i)%nat -> Double.exTie !! k = Some pk ->
       Double.feasible pk train = true ->
       (Double.score Double.DEFAULT_WEIGHTS pi train
        <? Double.score Double.DEFAULT_WEIGHTS pk train)%float = true
       \/ is_nan (Double.score Double.DEFAULT_WEIGHTS pk train) = true) /\
    (Double.ids_ok Double.exTie ->
     (Double.Platform.id pi <= Double.Platform.id pj)%nat).
Proof.
  cbv zeta.
  apply (first_minimum_wins Double.DEFAULT_WEIGHTS Double.exTie
           (Double.withEffective1 (Double.onTime "C" 30 40)) 1%nat
           (Double.Platform.mk 2
              [Double.withEffective1 (Double.onTime "B" 5 20)] 20)).
  - reflexivity.
  - vm_compute. reflexivity.
  - vm_compute. reflexivity.
  - intros [|[|k]] pk Hk Hf; cbn in Hk; inversion Hk; subst pk;
      vm_compute; reflexivity.
Defined.




(** C8, as it holds of the code.  Over the platforms returned by
    [assignPlatformsScoreBased] and their metrics, both reports use the
    [endMetric] of the train's own platform and the train's [delay] as the
    previous delay.  The chart data [delayComparisonData] has
    [newDelay = Number(|endMetric - delay|.toFixed(2))], the absolute
    difference rounded to two decimals.  The Scheduling Metrics table
    computes [newDelay = max(0, delay - endMetric)].  The rounding is of the
    double as it is: 0.075 and 8.625 become 0.07 and 8.63, and the three
    trains of [exD] get 6.33, 3.67 and 3.67.  The absolute difference and
    the clamped difference are different numbers, for instance at
    [endMetric] 5.5 and delay 0. *)
Theorem delay_reports (trains : list Double.Train.t)
    (weights : Double.ScoringWeights.t) :
  let platforms := Double.assignPlatformsScoreBased trains weights in
  let metrics := Double.platformMetrics platforms in
  let endMetric pl := Double.PlatformMetric.endMetric (Double.metricsOf pl) in
  Double.delayComparisonData platforms metrics
  = flat_map
      (fun pl =>
         map (fun t =>
                Double.DelayComparison.mk (Double.AssignedTrain.id t)
                  (Double.AssignedTrain.name t) (Double.AssignedTrain.delay t)
                  (Double.Number_toFixed2
                     (abs (endMetric pl - Double.AssignedTrain.delay t))))
           (Double.Platform.trains pl))
      platforms /\
  Double.schedulingMetrics platforms metrics
  = flat_map
      (fun pl =>
         map (fun t =>
                Double.SchedulingMetric.mk (Double.AssignedTrain.name t)
                  (Double.Platform.id pl) (Double.AssignedTrain.delay t)
                  (endMetric pl)
                  (Double.Math_max 0 (Double.AssignedTrain.delay t - endMetric pl)))
           (Double.Platform.trains pl))
      platforms /\
  Double.Number_toFixed2 0.075 = 0.07%float /\
  Double.Number_toFixed2 8.625 = 8.63%float /\
  (let platforms := Double.assignPlatformsScoreBased Double.exD Double.DEFAULT_WEIGHTS in
   map Double.DelayComparison.newDelay
     (Double.delayComparisonData platforms (Double.platformMetrics platforms))
   = [6.33; 3.67; 3.67]%float) /\
  (Double.Math_abs (5.5 - 0) =? Double.Math_max 0 (0 - 5.5))%float = false.
Proof.
  intros platforms metrics endMetric.
  pose proof (dbl_endMetricOf_metricsOf trains weights) as Hm.
  fold platforms in Hm. fold metrics in Hm.
  split; [|split; [|split; [|split; [|split]]]].
  - apply dbl_flat_map_Forall_ext. eapply Forall_impl; [exact Hm|].
    intros pl Hpl. cbn in Hpl. by rewrite Hpl.
  - apply dbl_flat_map_Forall_ext. eapply Forall_impl; [exact Hm|].
    intros pl Hpl. cbn in Hpl. by rewrite Hpl.
  - vm_compute. reflexivity.
  - vm_compute. reflexivity.
  - vm_compute. reflexivity.
  - vm_compute. reflexivity.
Qed.


(** X14.  For a train whose times are whole minutes of one day (0 to 1440)
    and whose delay is a whole number of minutes from -60 to 60, the width
    of its block on the timeline depends on its scheduled stay only, not on
    its delay: it is [(departure - arrival) / 240 * 100].  The block starts
    at [(arrival + delay) / 240 * 100]. *)
Theorem block_geometry (t : Double.Train.t) (arrival departure delay : Z) :
  (0 <= arrival <= 1440)%Z -> (0 <= departure <= 1440)%Z ->
  (-60 <= delay <= 60)%Z ->
  Double.Train.arrival t = Double.of_Z arrival ->
  Double.Train.departure t = Double.of_Z departure ->
  Double.Train.delay t = Double.of_Z delay ->
  Double.widthPct (Double.withEffective1 t)
  = ((Double.Train.departure t - Double.Train.arrival t) / 240 * 100)%float /\
  Double.leftPct (Double.withEffective1 t)
  = (Double.of_Z (arrival + delay) / 240 * 100)%float.
Proof.
  intros Ha Hd Hl Ea Ed El.
  unfold Double.widthPct, Double.leftPct, Double.MINUTE_START, Double.MINUTE_END.
  cbn [Double.withEffective1 Double.AssignedTrain.effectiveArrival
       Double.AssignedTrain.effectiveDeparture].
  cbv zeta.
  change (240 - 0)%float with 240%float.
  rewrite Ea, Ed, El.
  rewrite !dbl_add_whole by lia.
  change 0%float with (Double.of_Z 0).
  rewrite !dbl_sub_whole by lia.
  rewrite Z.sub_0_r.
  replace (departure + delay - (arrival + delay))%Z
    with (departure - arrival)%Z by lia.
  by split.
Qed.

Lemma block_geometry_witness :
  let t := Double.Train.mk "T1" "Red Line 101" 10 40 18 Delayed in
  Double.widthPct (Double.withEffective1 t) = 12.5%float /\
  Double.leftPct (Double.withEffective1 t) = (28 / 240 * 100)%float.
Proof.
  cbv zeta.
  apply (block_geometry (Double.Train.mk "T1" "Red Line 101" 10 40 18 Delayed)
           10%Z 40%Z 18%Z);
    first [lia | reflexivity].
Defined.
End DoubleClaims.
